(** * A shallow embedding of the statechart core (value algebra, context
      assignment, action builders) and of the stepper its interpreter drives.

    Conventions of the embedding.
    - A JavaScript object used as a record of regions is an association
      list in insertion order; [obj_set] overwrites an existing key in place
      and appends a new one, as property assignment does.  Only own string
      keys are modelled (no inherited members, no integer-like key
      reordering).
    - JavaScript truthiness is written out where the source relies on it:
      the empty string is falsy, every object is truthy.
    - A function of the source that can throw returns a [Result]. *)

From Stdlib Require Import Ascii ZArith Lia.
From stdpp Require Import gmap strings list pretty.

(** ** Results of functions that may throw *)

Inductive Result (A : Type) : Type :=
| Ok (a : A)
| Throw (message : string).
Arguments Ok {A} a.
Arguments Throw {A} message.

#[global] Instance Result_bind : MBind Result :=
  λ A B (k : A → Result B) (r : Result A),
    match r with
    | Ok a => k a
    | Throw m => Throw m
    end.

(** ** Values and records of types.ts

    types.ts is not under src/; the types below are read off the source that
    uses them: a record has the fields its builder in actions.ts writes, a
    union has the cases the functions of utils.ts tell apart. *)

Module Types.

(** The values an event or an identifier can be at run time.  A number is
    an integer here; a function value is known by its name. *)
#[warnings="-register-all"]
Inductive JSValue : Type :=
| JSUndefined
| JSNull
| JSBoolean (b : bool)
| JSNumber (n : Z)
| JSString (s : string)
| JSObject (props : list (string * JSValue))
| JSFunction (name : string).

(** Truthiness. *)
Definition js_truthy (v : JSValue) : bool :=
  match v with
  | JSUndefined | JSNull => false
  | JSBoolean b => b
  | JSNumber n => negb (n =? 0)%Z
  | JSString s => negb (String.eqb s "")
  | JSObject _ | JSFunction _ => true
  end.

(** The enum [ActionTypes], with the members actions.ts and utils.ts name. *)
Module ActionTypes.
Inductive t : Set :=
| Start | Stop | Raise | Send | Cancel | NullEvent | Assign | After
| DoneState | DoneInvoke | Log | Init | Invoke | ErrorExecution
| ErrorCommunication | ErrorPlatform | Update | Pure.

(** Modelled from the spec: types.ts, which gives the members of the enum
    their strings, is not under src/; [Init] is the type of the init event
    of §6. *)
Definition Init_value : string := "xstate.init".

(** Modelled from the spec: types.ts is not under src/; [After] is the
    reserved prefix [xstate.after(N)] of §6 up to its parenthesis. *)
Definition After_value : string := "xstate.after".

(** Modelled from the spec: types.ts is not under src/; [DoneState] is the
    reserved prefix [done.state.] of §6 without its last dot. *)
Definition DoneState_value : string := "done.state".

(** Modelled from the spec: types.ts is not under src/; [DoneInvoke] is the
    reserved prefix [done.invoke.] of §6 without its last dot. *)
Definition DoneInvoke_value : string := "done.invoke".

(** Modelled from the spec: types.ts is not under src/; [ErrorPlatform] is
    the reserved prefix [error.platform.] of §6 without its last dot. *)
Definition ErrorPlatform_value : string := "error.platform".
End ActionTypes.

Section Records.
(** The context is a record of values of some type [V] the engine never
    inspects. *)
Context {V : Type}.

(** What an expression of an action can evaluate to ([any]). *)
#[warnings="-register-all"]
Inductive Any : Type :=
| AnyValue (v : JSValue)
| AnyContext (context : gmap string V)
| AnyRecord (fields : list (string * Any)).

(** [PropertyAssigner]: per key, an updater function or a literal. *)
Inductive PropAssignment : Type :=
| PropFn (f : gmap string V → JSValue → V)
| PropValue (v : V).

(** [Assigner | PropertyAssigner]. *)
Inductive Assignment : Type :=
| Assigner (f : gmap string V → JSValue → gmap string V)
| PropertyAssigner (props : gmap string PropAssignment).

(** [AssignAction], as [assign] writes it and [updateContext] reads it. *)
Record AssignAction : Type := {
  assign_type : ActionTypes.t;
  assignment : Assignment
}.

(** [Event | SendExpr]: a function is called with the context, the event
    and the meta data. *)
Inductive SendEvent : Type :=
| SendEventValue (event : JSValue)
| SendEventExpr (name : string) (f : gmap string V → JSValue → JSValue → JSValue).

(** A delay is a number or, as [resolveSend] tests, a function of the
    context and the event. *)
Inductive SendDelay : Type :=
| SendDelayValue (delay : Z)
| SendDelayExpr (f : gmap string V → JSValue → Z).

(** A target is a value or, as [resolveSend] tests, a function of the
    context, the event and the meta data. *)
Inductive SendTarget : Type :=
| SendTargetValue (to : JSValue)
| SendTargetExpr (f : gmap string V → JSValue → JSValue → JSValue).

(** [SendActionOptions]: the options [send] reads, each of which may be
    missing. *)
Record SendActionOptions : Type := {
  options_id : option JSValue;
  options_delay : option SendDelay;
  options_to : option SendTarget
}.

(** [SendAction], as [send] writes it. *)
Record SendAction : Type := {
  send_to : option SendTarget;
  send_type : ActionTypes.t;
  send_event : SendEvent;
  send_delay : option SendDelay;
  send_id : JSValue
}.

(** [CancelAction], as [cancel] writes it. *)
Record CancelAction : Type := {
  cancel_type : ActionTypes.t;
  sendId : JSValue
}.

(** [RaiseEvent], as [raise] writes it. *)
Record RaiseEvent : Type := {
  raise_type : ActionTypes.t;
  raise_event : JSValue
}.

(** The record [log] writes. *)
Record LogAction : Type := {
  log_type : ActionTypes.t;
  label : option string;
  expr : gmap string V → JSValue → Any
}.

(** [DoneEventObject], as [done] writes it; [toString] is a method. *)
Record DoneEventObject : Type := {
  done_type : string;
  done_data : JSValue;
  done_toString : unit → string
}.
End Records.

Arguments Any : clear implicits.
Arguments PropAssignment : clear implicits.
Arguments Assignment : clear implicits.
Arguments AssignAction : clear implicits.
Arguments SendEvent : clear implicits.
Arguments SendDelay : clear implicits.
Arguments SendTarget : clear implicits.
Arguments SendActionOptions : clear implicits.
Arguments SendAction : clear implicits.
Arguments LogAction : clear implicits.

End Types.

(** ** State values *)

Module Utils.
Import Types.

(** [StateValue = string | { [key: string]: StateValue }]. *)
#[warnings="-register-all"]
Inductive StateValue : Type :=
| SVString (s : string)
| SVObject (props : list (string * StateValue)).

(** The induction principle that reaches the values stored in an object. *)
Section StateValue_induction.
Variable P : StateValue → Prop.
Hypothesis Hstr : ∀ s, P (SVString s).
Hypothesis Hobj : ∀ props, Forall (λ kv, P kv.2) props → P (SVObject props).

Fixpoint StateValue_nested_ind (v : StateValue) : P v :=
  match v with
  | SVString s => Hstr s
  | SVObject props =>
      Hobj props
        ((fix go (l : list (string * StateValue)) : Forall (λ kv, P kv.2) l :=
            match l with
            | [] => Forall_nil_2 _
            | kv :: l' => Forall_cons_2 _ kv l' (StateValue_nested_ind kv.2) (go l')
            end) props)
  end.
End StateValue_induction.

(** Own keys, in insertion order: [Object.keys]. *)
Definition keys {A : Type} (value : list (string * A)) : list string :=
  map fst value.

(** [object[key]]: [None] stands for [undefined]. *)
Fixpoint obj_get {A : Type} (key : string) (object : list (string * A)) : option A :=
  match object with
  | [] => None
  | (k, v) :: rest => if String.eqb k key then Some v else obj_get key rest
  end.

(** [key in object]. *)
Definition obj_has {A : Type} (key : string) (object : list (string * A)) : bool :=
  match obj_get key object with
  | Some _ => true
  | None => false
  end.

(** [object[key] = v]. *)
Fixpoint obj_set {A : Type} (key : string) (v : A) (object : list (string * A))
  : list (string * A) :=
  match object with
  | [] => [(key, v)]
  | (k, w) :: rest =>
      if String.eqb k key then (k, v) :: rest else (k, w) :: obj_set key v rest
  end.

(** Truthiness of a state value: only the empty string is falsy. *)
Definition truthy (v : StateValue) : bool :=
  match v with
  | SVString "" => false
  | _ => true
  end.

(** [toStatePaths]: the leaf paths of a value, one per region.  An empty
    string is falsy and yields the empty path; an empty sub-object ends the
    path at its key. *)
Fixpoint toStatePaths (stateValue : StateValue) : list (list string) :=
  match stateValue with
  | SVString s => if truthy (SVString s) then [[s]] else [[]]
  | SVObject props =>
      flat_map
        (λ kv : string * StateValue,
           match kv with
           | (key, subStateValue) =>
               match subStateValue with
               | SVObject [] => [[key]]
               | _ => map (cons key) (toStatePaths subStateValue)
               end
           end) props
  end.

(** [toStatePaths(undefined)] is [[[]]] as well. *)
Definition toStatePaths_opt (stateValue : option StateValue) : list (list string) :=
  match stateValue with
  | None => [[]]
  | Some v => toStatePaths v
  end.

(** The inner [for] loop of [pathsToStateValue] on one path, from the
    current index on, returning the updated [marker] object.  When the
    marker has become a string and the path goes on, the next assignment is
    a property write on a primitive, a [TypeError] in module (strict) code. *)
Fixpoint setPath (currentPath : list string) (marker : list (string * StateValue))
  : Result (list (string * StateValue)) :=
  match currentPath with
  | [] => Ok marker
  | subPath :: rest =>
      match rest with
      | [leaf] => Ok (obj_set subPath (SVString leaf) marker)
      | _ =>
          let next :=
            match obj_get subPath marker with
            | Some v => if truthy v then v else SVObject []
            | None => SVObject []
            end in
          match next with
          | SVObject inner =>
              inner' ← setPath rest inner;
              Ok (obj_set subPath (SVObject inner') marker)
          | SVString s =>
              match rest with
              | [] => Ok (obj_set subPath next marker)
              | _ => Throw "TypeError: cannot create property on string"
              end
          end
      end
  end.

(** The outer loop over the paths. *)
Fixpoint setPaths (paths : list (list string)) (result : list (string * StateValue))
  : Result (list (string * StateValue)) :=
  match paths with
  | [] => Ok result
  | currentPath :: more =>
      result' ← setPath currentPath result;
      setPaths more result'
  end.

(** [pathsToStateValue]: a single path of a single segment is that leaf;
    otherwise every path is written into one object. *)
Definition pathsToStateValue (paths : list (list string)) : Result StateValue :=
  match paths with
  | [[leaf]] => Ok (SVString leaf)
  | _ =>
      result ← setPaths paths [];
      Ok (SVObject result)
  end.

(** ** Dotted strings and paths *)

(** Modelled from the spec: constants.ts, which defines [STATE_DELIMITER],
    is not under src/; the default delimiter is [.] (§4.1). *)
Definition STATE_DELIMITER : string := ".".

(** [String.prototype.split] with a non-empty separator, scanning [s] from
    the left: [cur] is the segment read so far, [skip] counts the characters
    of a separator occurrence still to be passed over. *)
Fixpoint split_from (sep : string) (skip : nat) (cur : string) (s : string)
  : list string :=
  match s with
  | EmptyString => [cur]
  | String c rest =>
      match skip with
      | S n => split_from sep n cur rest
      | O =>
          if String.prefix sep s
          then cur :: split_from sep (String.length sep - 1) "" rest
          else split_from sep 0 (cur +:+ String c "") rest
      end
  end.

(** [s.split(sep)]; the empty separator cuts [s] into its characters. *)
Definition split (s sep : string) : list string :=
  match sep with
  | EmptyString => map (λ c, String c "") (String.list_ascii_of_string s)
  | _ => split_from sep 0 "" s
  end.

(** [toStatePath]: an array is taken as it is, a string is split. *)
Definition toStatePath (stateId : string + list string) (delimiter : string)
  : list string :=
  match stateId with
  | inr path => path
  | inl s => split s delimiter
  end.

(** The loop of [pathToStateValue], for a path of at least two segments. *)
Fixpoint pathToStateValue_loop (statePath : list string)
  : list (string * StateValue) :=
  match statePath with
  | [] => []
  | key :: rest =>
      match rest with
      | [] => []
      | [leaf] => [(key, SVString leaf)]
      | _ => [(key, SVObject (pathToStateValue_loop rest))]
      end
  end.

(** [pathToStateValue]: a single segment is a leaf, a longer path a chain
    of mappings. *)
Definition pathToStateValue (statePath : list string) : StateValue :=
  match statePath with
  | [leaf] => SVString leaf
  | _ => SVObject (pathToStateValue_loop statePath)
  end.

(** [isState]: duck typing on the three fields of a [State]. *)
Definition isState (state : StateValue) : bool :=
  match state with
  | SVString _ => false
  | SVObject props =>
      obj_has "value" props && obj_has "tree" props && obj_has "history" props
  end.

(** What [toStateValue] accepts: a [State] (through its fields as far as
    they are values), a path array, or a value. *)
Inductive StateValueLike : Type :=
| LikeValue (v : StateValue)
| LikePath (path : list string).

(** [toStateValue]: the value of a [State], the value of a path, a mapping
    as it is, or the value of a dotted string. *)
Definition toStateValue (stateValue : StateValueLike) (delimiter : string)
  : StateValue :=
  match stateValue with
  | LikePath path => pathToStateValue path
  | LikeValue v =>
      if isState v then
        match v with
        | SVObject props => default v (obj_get "value" props)
        | SVString _ => v
        end
      else
        match v with
        | SVObject _ => v
        | SVString s => pathToStateValue (toStatePath (inl s) delimiter)
        end
  end.

(** [Array.prototype.every] for a callback whose evaluation may run out of
    fuel ([None]); it stops at the first [false]. *)
Fixpoint every {A : Type} (f : A → option bool) (l : list A) : option bool :=
  match l with
  | [] => Some true
  | x :: rest =>
      match f x with
      | Some true => every f rest
      | other => other
      end
  end.

(** [matchesState], with the recursion depth made explicit.  The recursive
    call passes no delimiter, so sub-values are read with the default one. *)
Fixpoint matchesState_fuel (fuel : nat) (parentStateId childStateId : StateValue)
    (delimiter : string) : option bool :=
  match fuel with
  | O => None
  | S fuel' =>
      let parentStateValue := toStateValue (LikeValue parentStateId) delimiter in
      let childStateValue := toStateValue (LikeValue childStateId) delimiter in
      match childStateValue with
      | SVString child =>
          match parentStateValue with
          | SVString parent => Some (String.eqb child parent)
          | SVObject _ => Some false
          end
      | SVObject childProps =>
          match parentStateValue with
          | SVString parent => Some (obj_has parent childProps)
          | SVObject parentProps =>
              every
                (λ kv : string * StateValue,
                   match obj_get kv.1 childProps with
                   | None => Some false
                   | Some childSub =>
                       matchesState_fuel fuel' kv.2 childSub STATE_DELIMITER
                   end)
                parentProps
          end
      end
  end.

(** A bound on the depth of the recursion of [matchesState] on a pattern:
    a string of length [n] splits into at most [n + 1] nested levels. *)
Fixpoint matchesState_depth (v : StateValue) : nat :=
  match v with
  | SVString s => S (String.length s)
  | SVObject props =>
      S (foldr (λ kv acc, Nat.max (matchesState_depth kv.2) acc) 0 props)
  end.

(** [matchesState], run with fuel that always suffices
    ([matchesState_fuel_total] below). *)
Definition matchesState (parentStateId childStateId : StateValue)
    (delimiter : string) : bool :=
  match matchesState_fuel (S (matchesState_depth parentStateId))
          parentStateId childStateId delimiter with
  | Some b => b
  | None => false
  end.





(** The largest depth bound among the regions of a mapping. *)
Definition depth_props (props : list (string * StateValue)) : nat :=
  foldr (λ kv acc, Nat.max (matchesState_depth kv.2) acc) 0 props.


(** ** History values *)

(** [HistoryValue = { current: StateValue | undefined,
                      states: Record<string, HistoryValue | undefined> }]. *)
#[warnings="-register-all"]
Inductive HistoryValue : Type :=
| mkHistoryValue (current : option StateValue)
                 (states : list (string * option HistoryValue)).

(** [hist.current]. *)
Definition current (hist : HistoryValue) : option StateValue :=
  match hist with mkHistoryValue c _ => c end.

(** [hist.states]. *)
Definition states (hist : HistoryValue) : list (string * option HistoryValue) :=
  match hist with mkHistoryValue _ s => s end.

(** The induction principle that reaches the histories stored under
    [states]. *)
Fixpoint HistoryValue_nested_ind (P : HistoryValue → Prop)
    (step : ∀ cur sts,
        Forall (λ kv : string * option HistoryValue,
                  match kv.2 with Some h => P h | None => True end) sts →
        P (mkHistoryValue cur sts))
    (hist : HistoryValue) : P hist :=
  match hist with
  | mkHistoryValue cur sts =>
      step cur sts
        ((fix go (l : list (string * option HistoryValue))
            : Forall (λ kv : string * option HistoryValue,
                        match kv.2 with Some h => P h | None => True end) l :=
            match l with
            | [] => Forall_nil_2 _
            | kv :: l' =>
                Forall_cons_2 _ kv l'
                  (match kv.2 as o
                         return match o with Some h => P h | None => True end with
                   | Some h => HistoryValue_nested_ind P step h
                   | None => I
                   end)
                  (go l')
            end) sts)
  end.

(** [mapValues]: a new object with the same keys in the same order. *)
Definition mapValues {T P : Type} (collection : list (string * T))
    (iteratee : T → string → P) : list (string * P) :=
  map (λ kv : string * T, (kv.1, iteratee kv.2 kv.1)) collection.

(** [a || b] on values that may be [undefined]. *)
Definition orElse (a b : option StateValue) : option StateValue :=
  match a with
  | Some v => if truthy v then a else b
  | None => b
  end.

(** [!x] fails for a truthy value only. *)
Definition truthyValue (a : option StateValue) : option StateValue :=
  match a with
  | Some v => if truthy v then Some v else None
  | None => None
  end.

(** [updateHistoryStates]: every tracked subtree gets the sub-value of the
    state value for its key or, failing that, what it remembered; an entry
    without either becomes [undefined]. *)
Fixpoint updateHistoryStates (hist : HistoryValue) (stateValue : StateValue)
  : list (string * option HistoryValue) :=
  match hist with
  | mkHistoryValue _ histStates =>
      mapValues histStates
        (λ (subHist : option HistoryValue) (key : string),
           match subHist with
           | None => None
           | Some subHist =>
               let subStateValue :=
                 orElse
                   (match stateValue with
                    | SVString _ => None
                    | SVObject props => obj_get key props
                    end)
                   (current subHist) in
               match truthyValue subStateValue with
               | None => None
               | Some subStateValue =>
                   Some (mkHistoryValue (Some subStateValue)
                           (updateHistoryStates subHist subStateValue))
               end
           end)
  end.

(** [updateHistoryValue]. *)
Definition updateHistoryValue (hist : HistoryValue) (stateValue : StateValue)
  : HistoryValue :=
  mkHistoryValue (Some stateValue) (updateHistoryStates hist stateValue).



(** [partition]: the items that satisfy the predicate, and the others, both
    in their order. *)
Definition partition {T : Type} (items : list T) (predicate : T → bool)
  : list T * list T :=
  foldl
    (λ (acc : list T * list T) item,
       if predicate item then (acc.1 ++ [item], acc.2)
       else (acc.1, acc.2 ++ [item]))
    ([], []) items.

(** ** Events and context *)

(** [value.type] for a value that is neither [null] nor [undefined]. *)
Definition type_of (value : JSValue) : JSValue :=
  match value with
  | JSObject props => default JSUndefined (obj_get "type" props)
  | _ => JSUndefined
  end.

(** [getEventType]: a string or a number is its own type, as a string; of
    anything else the [type] property is read, which throws on [null] and
    [undefined] only; the [catch] turns that into the error below. *)
Definition getEventType (event : JSValue) : Result JSValue :=
  match event with
  | JSString s => Ok (JSString s)
  | JSNumber n => Ok (JSString (pretty n))
  | JSNull | JSUndefined =>
      Throw "Events must be strings or objects with a string event.type property."
  | _ => Ok (type_of event)
  end.


(** [{ type: ActionTypes.Init }]. *)
Definition initEventObject : JSValue :=
  JSObject [("type", JSString ActionTypes.Init_value)].

Section Context.
Context {V : Type}.

(** The [for] loop over the keys of a property assigner, filling
    [partialUpdate]. *)
Definition propertyUpdate (props : gmap string (PropAssignment V))
    (acc : gmap string V) (event : JSValue) : gmap string V :=
  map_fold
    (λ key propAssignment partialUpdate,
       <[key :=
           match propAssignment with
           | PropFn f => f acc event
           | PropValue v => v
           end]> partialUpdate)
    ∅ props.

(** [updateContext]: [None] is the [undefined] context, the only falsy
    one; [Object.assign({}, acc, partialUpdate)] is the union in which
    [partialUpdate] wins. *)
Definition updateContext (context : option (gmap string V)) (event : JSValue)
    (assignActions : list (AssignAction V)) : option (gmap string V) :=
  match context with
  | Some context =>
      Some
        (foldl
           (λ acc assignAction,
              let partialUpdate :=
                match assignment assignAction with
                | Assigner f =>
                    f acc (if js_truthy event then event else initEventObject)
                | PropertyAssigner props => propertyUpdate props acc event
                end in
              partialUpdate ∪ acc)
           context assignActions)
  | None => None
  end.
End Context.

(** ** More of utils.ts *)

(** [getActionType]: like [getEventType], but a function action is known
    by its name, and the error has its own message. *)
Definition getActionType (action : JSValue) : Result JSValue :=
  match action with
  | JSString s => Ok (JSString s)
  | JSNumber n => Ok (JSString (pretty n))
  | JSFunction name => Ok (JSString name)
  | JSNull | JSUndefined =>
      Throw "Actions must be strings or objects with a string action.type property."
  | _ => Ok (type_of action)
  end.

(** [mapFilterValues]: the entries whose item satisfies the predicate,
    mapped, written one by one into a fresh object. *)
Definition mapFilterValues {T P : Type} (collection : list (string * T))
    (iteratee : T → string → P) (predicate : T → bool) : list (string * P) :=
  foldl
    (λ result (kv : string * T),
       if predicate kv.2 then obj_set kv.1 (iteratee kv.2 kv.1) result
       else result)
    [] collection.

Section Path.
(** What a property read answers on a value that is neither an object nor
    [null] nor [undefined] (a primitive or a function); such a read does not
    throw. *)
Variable primitiveProperty : JSValue → string → JSValue.

(** [object[prop]]. *)
Definition getProperty (object : JSValue) (prop : string) : Result JSValue :=
  match object with
  | JSUndefined | JSNull =>
      Throw "TypeError: cannot read properties of undefined or null"
  | JSObject props => Ok (default JSUndefined (obj_get prop props))
  | _ => Ok (primitiveProperty object prop)
  end.

(** [path(props)(object)]: the value at the deep path. *)
Fixpoint path (props : list string) (object : JSValue) : Result JSValue :=
  match props with
  | [] => Ok object
  | prop :: rest =>
      result ← getProperty object prop;
      path rest result
  end.

(** [nestedPath(props, accessorProp)(object)]: the value at the deep path,
    every step going through the accessor property. *)
Fixpoint nestedPath (props : list string) (accessorProp : string)
    (object : JSValue) : Result JSValue :=
  match props with
  | [] => Ok object
  | prop :: rest =>
      inner ← getProperty object accessorProp;
      result ← getProperty inner prop;
      nestedPath rest accessorProp result
  end.
End Path.

(** [null] or [undefined]. *)
Definition nullish (value : JSValue) : bool :=
  match value with
  | JSUndefined | JSNull => true
  | _ => false
  end.

Section BuiltIn.
(** The string of [ActionTypes.ErrorCommunication] (types.ts, not under
    src/). *)
Variable ErrorCommunication : string.

(** [isBuiltInEvent]: [indexOf(prefix) === 0] holds of the strings that
    start with the prefix; the second test compares with the same constant
    twice. *)
Definition isBuiltInEvent (eventType : string) : bool :=
  if String.prefix ActionTypes.DoneState_value eventType
     || String.prefix ActionTypes.DoneInvoke_value eventType
  then true
  else if String.eqb eventType ErrorCommunication
          || String.eqb eventType ErrorCommunication
  then true
  else false.
End BuiltIn.

(** An assignment whose updaters are all literals. *)
Definition literalsOnly {V : Type} (props : gmap string (PropAssignment V)) : Prop :=
  map_Forall (λ _ u, match u with PropValue _ => True | PropFn _ => False end) props.

End Utils.

(** ** Action builders (actions.ts) *)

Module Actions.
Import Types Utils.

Section Builders.
Context {V : Type}.

(** [toEventObject] and [toSCXMLEvent] belong to a part of utils.ts that
    is not under src/; the builders take them as they are. *)
Variable toEventObject : JSValue → JSValue.
Variable toSCXMLEvent : JSValue → JSValue.

(** [raise]. *)
Definition raise (event : JSValue) : RaiseEvent :=
  {| raise_type := ActionTypes.Raise; raise_event := event |}.

(** [send]: the fields are evaluated in the order of the object literal;
    only the identifier can throw, through [getEventType]. *)
Definition send (event : SendEvent V) (options : option (SendActionOptions V))
  : Result (SendAction V) :=
  let to := match options with Some o => options_to o | None => None end in
  let event' :=
    match event with
    | SendEventExpr _ _ => event
    | SendEventValue e => SendEventValue (toEventObject e)
    end in
  let delay := match options with Some o => options_delay o | None => None end in
  id ← match options ≫= options_id with
       | Some id => Ok id
       | None =>
           match event with
           | SendEventExpr name _ => Ok (JSString name)
           | SendEventValue e => getEventType e
           end
       end;
  Ok {| send_to := to; send_type := ActionTypes.Send; send_event := event';
        send_delay := delay; send_id := id |}.

(** [resolveSend]: the expressions of a send action evaluated against a
    context and an event. *)
Definition resolveSend (action : SendAction V) (ctx : gmap string V)
    (event : JSValue) : SendAction V :=
  let meta := JSObject [("_event", toSCXMLEvent event)] in
  let resolvedEvent :=
    match send_event action with
    | SendEventExpr _ f => SendEventValue (f ctx event meta)
    | SendEventValue e => SendEventValue e
    end in
  let resolvedDelay :=
    match send_delay action with
    | Some (SendDelayExpr f) => Some (SendDelayValue (f ctx event))
    | other => other
    end in
  let resolvedTarget :=
    match send_to action with
    | Some (SendTargetExpr f) => Some (SendTargetValue (f ctx event meta))
    | other => other
    end in
  {| send_to := resolvedTarget; send_type := send_type action;
     send_event := resolvedEvent; send_delay := resolvedDelay;
     send_id := send_id action |}.

(** [log]: without an expression, the context and the event are logged. *)
Definition log (expr : option (gmap string V → JSValue → Any V))
    (label : option string) : LogAction V :=
  {| log_type := ActionTypes.Log;
     label := label;
     expr := default (λ context event,
                        AnyRecord [("context", AnyContext context);
                                   ("event", AnyValue event)]) expr |}.

(** [cancel]. *)
Definition cancel (sendId : JSValue) : CancelAction :=
  {| cancel_type := ActionTypes.Cancel; sendId := sendId |}.

(** [assign]. *)
Definition assign (assignment : Assignment V) : AssignAction V :=
  {| assign_type := ActionTypes.Assign; assignment := assignment |}.

(** The string of [SpecialTargets.Parent] (types.ts, not under src/). *)
Variable SpecialTargets_Parent : JSValue.

(** [sendParent]: [send] with the options spread and the target set to the
    parent. *)
Definition sendParent (event : SendEvent V) (options : option (SendActionOptions V))
  : Result (SendAction V) :=
  send event
    (Some {| options_id := options ≫= options_id;
             options_delay := options ≫= options_delay;
             options_to := Some (SendTargetValue SpecialTargets_Parent) |}).
End Builders.

(** A template literal prints a number in decimal and a string as it is. *)
Definition template (delayRef : Z + string) : string :=
  match delayRef with
  | inl n => pretty n
  | inr s => s
  end.

(** [after]: the event type of the implicit delayed event; an absent or
    empty identifier adds no suffix. *)
Definition after (delayRef : Z + string) (id : option string) : string :=
  let idSuffix :=
    match id with
    | Some id => if negb (String.eqb id "") then "#" +:+ id else ""
    | None => ""
    end in
  ActionTypes.After_value +:+ "(" +:+ template delayRef +:+ ")" +:+ idSuffix.

(** [done]: [data] is [undefined] when it is not given. *)
Definition done (id : string) (data : option JSValue) : DoneEventObject :=
  let type := ActionTypes.DoneState_value +:+ "." +:+ id in
  {| done_type := type;
     done_data := default JSUndefined data;
     done_toString := λ _, type |}.

(** [doneInvoke]: the event of a terminated invoked service. *)
Definition doneInvoke (id : string) (data : option JSValue) : DoneEventObject :=
  let type := ActionTypes.DoneInvoke_value +:+ "." +:+ id in
  {| done_type := type;
     done_data := default JSUndefined data;
     done_toString := λ _, type |}.

(** [error]: the platform error event of a service. *)
Definition error (id : string) (data : option JSValue) : DoneEventObject :=
  let type := ActionTypes.ErrorPlatform_value +:+ "." +:+ id in
  {| done_type := type;
     done_data := default JSUndefined data;
     done_toString := λ _, type |}.

End Actions.

(** ** The definition model, the selector and the stepper

    StateNode.ts and State.ts are not under src/: what follows in this
    module is modelled from the spec (§3, §4.2, §4.4, §4.5, §7), on top of
    the functions of utils.ts and actions.ts embedded above. *)

Module Stepper.
Import Types Utils Actions.

(** Modelled from the spec: the comparison of values in the [changed] flag
    (§4.5 step 8), missing with State.ts; state values are compared
    structurally. *)
Fixpoint StateValue_eqb (a b : StateValue) : bool :=
  match a, b with
  | SVString s, SVString t => String.eqb s t
  | SVObject p, SVObject q =>
      (fix go (p q : list (string * StateValue)) : bool :=
         match p, q with
         | [], [] => true
         | (k, v) :: p', (k', v') :: q' =>
             String.eqb k k' && StateValue_eqb v v' && go p' q'
         | _, _ => false
         end) p q
  | _, _ => false
  end.

(** Modelled from the spec: [toEventObject] is in a part of utils.ts that is
    not under src/.  By the spec's event descriptor (§6) an event is a string
    type or a record with a [type]; a bare type stands for the record that
    has only that type. *)
Definition toEventObject (event : JSValue) : JSValue :=
  match event with
  | JSString _ | JSNumber _ => JSObject [("type", event)]
  | _ => event
  end.

Section Machine.
Context {V : Type} `{EqDecision V}.

(** [toSCXMLEvent] (utils.ts) is not under src/ and the spec does not
    describe it; [resolveSend] passes its result to the expressions. *)
Variable toSCXMLEvent : JSValue → JSValue.

(** Modelled from the spec: the type [Action] of types.ts is missing; these
    are the action records a definition carries (§4.6), as the builders of
    actions.ts make them; [pure] and [invoke] are left out, and an activity
    is known by its name. *)
Inductive Action : Type :=
| ActionRaise (a : RaiseEvent)
| ActionSend (a : SendAction V)
| ActionCancel (a : CancelAction)
| ActionLog (a : LogAction V)
| ActionAssign (a : AssignAction V)
| ActionStart (activity : string)
| ActionStop (activity : string)
| ActionCustom (type : string).

(** Modelled from the spec: the type [ActionObject] of types.ts is missing;
    these are the fully resolved action objects of a configuration (§4.5
    step 5): a send action has its expressions evaluated, a log action
    carries the value to log, and no assign action is left. *)
Inductive ActionObject : Type :=
| ObjectRaise (a : RaiseEvent)
| ObjectSend (a : SendAction V)
| ObjectCancel (a : CancelAction)
| ObjectLog (label : option string) (value : Any V)
| ObjectStart (activity : string)
| ObjectStop (activity : string)
| ObjectCustom (type : string).

(** Modelled from the spec: the kinds of a state node (§3), missing with
    StateNode.ts. *)
Inductive NodeKind : Set := Atomic | Compound | Parallel | Final | History.

(** Modelled from the spec: [TransitionDefinition] of types.ts is missing; a
    normalized transition (§4.2) has targets (none for a targetless
    transition), actions, an optional guard evaluated against the context,
    the event and the current value, and the [internal] flag. *)
Record TransitionDefinition : Type := {
  target : list string;
  transition_actions : list Action;
  cond : option (gmap string V → JSValue → StateValue → bool);
  internal : bool
}.

(** Modelled from the spec: the class [StateNode] (StateNode.ts) is
    missing; a state node (§3) has a key, a kind, an initial child, children
    in document order, a transition table keyed by event type, eventless
    transitions, entry and exit actions, and activities. *)
#[warnings="-register-all"]
Inductive StateNode : Type :=
  mkStateNode {
    key : string;
    kind : NodeKind;
    initial : option string;
    children : list StateNode;
    on : list (string * list TransitionDefinition);
    always : list TransitionDefinition;
    entry : list Action;
    exit : list Action;
    activities : list string
  }.

(** Modelled from the spec: the class [State] (State.ts) is missing; a
    configuration (§3) has a value, a context, the event that produced it,
    a history, ordered actions, an activity map and the [changed] flag (the
    [tree] helper is left out). *)
Record State : Type := {
  value : StateValue;
  context : gmap string V;
  event : JSValue;
  history : option HistoryValue;
  actions : list ActionObject;
  activity_map : gmap string bool;
  changed : bool
}.

(** Modelled from the spec: node identifiers (§3), missing with
    StateNode.ts; a node is identified by the keys that lead to it from the
    root. *)
Definition NodeId : Type := list string.

(** Modelled from the spec: the child of a node with a given key (§3),
    missing with StateNode.ts. *)
Definition child (node : StateNode) (k : string) : option StateNode :=
  List.find (λ c, String.eqb (key c) k) (children node).

(** Modelled from the spec: the selector of StateNode.ts is missing; §4.4
    step 1: the nodes met from the root down to the leaf of a path, each
    with its identifier. *)
Fixpoint nodesOnPath (node : StateNode) (id : NodeId) (path : list string)
  : list (NodeId * StateNode) :=
  (id, node) ::
  match path with
  | [] => []
  | k :: rest =>
      match child node k with
      | Some c => nodesOnPath c (id ++ [k]) rest
      | None => []
      end
  end.

(** Modelled from the spec: the selector of StateNode.ts is missing; §4.4
    step 1: for every leaf path of the value, the leaf and its ancestors,
    leaf first. *)
Definition activeChains (machine : StateNode) (v : StateValue)
  : list (list (NodeId * StateNode)) :=
  map (λ path, rev (nodesOnPath machine [] path)) (toStatePaths v).

(** Modelled from the spec: the selector of StateNode.ts is missing; §4.4
    step 2: the table is consulted for the event type, then for the
    wildcard. *)
Definition candidates (node : StateNode) (eventType : string)
  : list TransitionDefinition :=
  match obj_get eventType (on node) with
  | Some transitions => transitions
  | None => default [] (obj_get "*" (on node))
  end.

(** Modelled from the spec: the selector of StateNode.ts is missing; §4.4
    step 2: a transition matches when its guard, if it has one, holds of the
    context, the event and the current value. *)
Definition guardPasses (ctx : gmap string V) (eventObject : JSValue)
    (current : StateValue) (t : TransitionDefinition) : bool :=
  match cond t with
  | Some guard => guard ctx eventObject current
  | None => true
  end.

(** Modelled from the spec: the selector of StateNode.ts is missing; §4.4
    step 2: the first matching transition on the innermost node that has
    one wins, and the search stops. *)
Fixpoint selectOnChain (pick : StateNode → option TransitionDefinition)
    (chain : list (NodeId * StateNode)) : option (NodeId * TransitionDefinition) :=
  match chain with
  | [] => None
  | (id, node) :: ancestors =>
      match pick node with
      | Some t => Some (id, t)
      | None => selectOnChain pick ancestors
      end
  end.

(** Modelled from the spec: the selector of StateNode.ts is missing;
    document order (§3): a node before its children, children in order. *)
Fixpoint documentOrder (node : StateNode) (id : NodeId) : list NodeId :=
  id :: flat_map (λ c, documentOrder c (id ++ [key c])) (children node).

(** Modelled from the spec: equality of node identifiers, missing with
    StateNode.ts. *)
Definition NodeId_eqb (a b : NodeId) : bool := bool_decide (a = b).

(** Modelled from the spec: the selector of StateNode.ts is missing; §4.4
    step 3: the selected transitions are united, in document order of the
    source nodes. *)
Definition inDocumentOrder (machine : StateNode)
    (selected : list (NodeId * TransitionDefinition))
  : list (NodeId * TransitionDefinition) :=
  omap (λ id, List.find (λ st, NodeId_eqb st.1 id) selected)
       (documentOrder machine []).

(** Modelled from the spec: the selector of StateNode.ts is missing; §4.4
    step 3: every region selects on its own. *)
Definition selectWith (pick : StateNode → option TransitionDefinition)
    (machine : StateNode) (v : StateValue)
  : list (NodeId * TransitionDefinition) :=
  inDocumentOrder machine (omap (selectOnChain pick) (activeChains machine v)).

(** Modelled from the spec: the selector of StateNode.ts is missing; §4.4
    steps 1 to 3 for an event. *)
Definition selectTransitions (machine : StateNode) (v : StateValue)
    (ctx : gmap string V) (eventObject : JSValue) (eventType : string)
  : list (NodeId * TransitionDefinition) :=
  selectWith
    (λ node, List.find (guardPasses ctx eventObject v) (candidates node eventType))
    machine v.

(** Modelled from the spec: the selector of StateNode.ts is missing; the
    eventless ([always]) transitions have no guard (§3), and the innermost
    active node that has one enables its first. *)
Definition selectEventless (machine : StateNode) (v : StateValue)
  : list (NodeId * TransitionDefinition) :=
  selectWith (λ node, head (always node)) machine v.

(** Modelled from the spec: the selector of StateNode.ts is missing; no
    transition matches (§4.4 step 2, §8) when on no active node a candidate
    for the event passes its guard. *)
Definition noTransitionMatches (machine : StateNode) (state : State)
    (eventObject : JSValue) (eventType : string) : bool :=
  forallb
    (forallb
       (λ idn : NodeId * StateNode,
          forallb
            (λ t, negb (guardPasses (context state) eventObject (value state) t))
            (candidates idn.2 eventType)))
    (activeChains machine (value state)).

(** Modelled from the spec: the selector of StateNode.ts is missing; no
    eventless transition is enabled (§4.5) when no active node has one. *)
Definition noEventlessEnabled (machine : StateNode) (state : State) : bool :=
  forallb
    (forallb
       (λ idn : NodeId * StateNode,
          match always idn.2 with
          | [] => true
          | _ => false
          end))
    (activeChains machine (value state)).

(** Modelled from the spec: the selector of StateNode.ts is missing; §4.4
    step 4: a transition without a target, or with [internal] set, is
    internal. *)
Definition isInternal (t : TransitionDefinition) : bool :=
  match target t with
  | [] => true
  | _ => internal t
  end.

(** Modelled from the spec: the stepper of StateNode.ts is missing; what
    leaving and entering nodes contributes to a step (§4.5 steps 1, 2, 6 and
    7): the new value, the exit and entry actions, the activity actions, the
    history, the activity map and the raised [done] events. *)
Record ExitEntry : Type := {
  next_value : StateValue;
  exit_actions : list Action;
  entry_actions : list Action;
  activity_actions : list Action;
  next_history : option HistoryValue;
  next_activities : gmap string bool;
  done_events : list ActionObject
}.

(** Target resolution and the exit and entry sets of external transitions
    (§4.4 step 5, §4.5 steps 1, 2, 6 and 7) are not modelled: the stepper
    takes them as given. *)
Variable enterTargets :
  StateNode → State → list (NodeId * TransitionDefinition) → JSValue → ExitEntry.

(** Modelled from the spec: the stepper of StateNode.ts is missing; §4.4
    step 4: internal transitions exit and enter nothing. *)
Definition stay (state : State) : ExitEntry :=
  {| next_value := value state;
     exit_actions := [];
     entry_actions := [];
     activity_actions := [];
     next_history := history state;
     next_activities := activity_map state;
     done_events := [] |}.

(** Modelled from the spec: the stepper of StateNode.ts is missing; §4.5
    step 4: the assign actions among the collected actions. *)
Definition isAssign (a : Action) : bool :=
  match a with
  | ActionAssign _ => true
  | _ => false
  end.

(** Modelled from the spec: the stepper of StateNode.ts is missing; the
    assignment an assign action carries. *)
Definition assignOf (a : Action) : option (AssignAction V) :=
  match a with
  | ActionAssign x => Some x
  | _ => None
  end.

(** Modelled from the spec: the stepper of StateNode.ts is missing; §4.5
    step 5: send and log expressions are evaluated against the new context
    and the event. *)
Definition resolveAction (ctx : gmap string V) (eventObject : JSValue)
    (a : Action) : option ActionObject :=
  match a with
  | ActionRaise x => Some (ObjectRaise x)
  | ActionSend x => Some (ObjectSend (resolveSend toSCXMLEvent x ctx eventObject))
  | ActionCancel x => Some (ObjectCancel x)
  | ActionLog x => Some (ObjectLog (label x) (expr x ctx eventObject))
  | ActionAssign _ => None
  | ActionStart x => Some (ObjectStart x)
  | ActionStop x => Some (ObjectStop x)
  | ActionCustom x => Some (ObjectCustom x)
  end.

(** Modelled from the spec: the stepper of StateNode.ts is missing; §4.5
    steps 3, 4, 5 and 8: the actions in order (exit, transition, entry,
    activities); the assign actions folded into the context once and
    stripped; the others resolved against the new context; the result
    assembled. *)
Definition microstep (machine : StateNode) (state : State)
    (enabled : list (NodeId * TransitionDefinition)) (eventObject : JSValue)
  : State :=
  let external := filter (λ st, negb (isInternal st.2)) enabled in
  let around :=
    match external with
    | [] => stay state
    | _ => enterTargets machine state external eventObject
    end in
  let collected :=
    exit_actions around
    ++ flat_map (λ st, transition_actions st.2) enabled
    ++ entry_actions around
    ++ activity_actions around in
  let (assignActions, otherActions) := partition collected isAssign in
  let context' :=
    default (context state)
      (updateContext (Some (context state)) eventObject
         (omap assignOf assignActions)) in
  let resolved :=
    omap (resolveAction context' eventObject) otherActions
    ++ done_events around in
  {| value := next_value around;
     context := context';
     event := eventObject;
     history := next_history around;
     actions := resolved;
     activity_map := next_activities around;
     changed :=
       negb (StateValue_eqb (next_value around) (value state))
       || negb (bool_decide (resolved = []))
       || negb (bool_decide (context' = context state)) |}.

(** Modelled from the spec: [StateNode.transition] (StateNode.ts) is
    missing; §4.5 (last paragraph) and §7: the event type is resolved first
    ([getEventType]); an event whose type is not a string is an
    [invalid_event]; when the selector returns nothing and no eventless
    transition is enabled, only [event] and [changed] differ from the prior
    configuration. *)
Definition transition (machine : StateNode) (state : State) (event : JSValue)
  : Result State :=
  eventType ← getEventType event;
  match eventType with
  | JSString type =>
      let eventObject := toEventObject event in
      let selected :=
        selectTransitions machine (value state) (context state) eventObject type in
      let enabled :=
        match selected with
        | [] => selectEventless machine (value state)
        | _ => selected
        end in
      match enabled with
      | [] =>
          Ok {| value := value state;
                context := context state;
                event := eventObject;
                history := history state;
                actions := actions state;
                activity_map := activity_map state;
                changed := false |}
      | _ => Ok (microstep machine state enabled eventObject)
      end
  | _ => Throw "invalid_event"
  end.
End Machine.

Arguments Action : clear implicits.
Arguments ActionObject : clear implicits.
Arguments TransitionDefinition : clear implicits.
Arguments StateNode : clear implicits.
Arguments State : clear implicits.
Arguments ExitEntry : clear implicits.

End Stepper.

(** ** Nodes of a machine (graph.ts) *)

Module Graph.
Import Types Utils Actions Stepper.

Section Nodes.
Context {V : Type}.

(** [getNodes]: every child, each followed by its own nodes. *)
Fixpoint getNodes (node : StateNode V) : list (StateNode V) :=
  flat_map (λ subState, subState :: getNodes subState) (children node).

(** The nodes below a node: its children and what is below them. *)
Inductive below : StateNode V → StateNode V → Prop :=
| below_child node c : c ∈ children node → below c node
| below_deeper node c d : c ∈ children node → below d c → below d node.

(** The induction principle that reaches the children of a node. *)
Fixpoint StateNode_nested_ind (P : StateNode V → Prop)
    (step : ∀ node, Forall P (children node) → P node)
    (node : StateNode V) : P node :=
  step node
    ((fix go (l : list (StateNode V)) : Forall P l :=
        match l with
        | [] => Forall_nil_2 _
        | c :: l' => Forall_cons_2 _ c l' (StateNode_nested_ind P step c) (go l')
        end) (children node)).
End Nodes.

(** ** Adjacency and simple paths

    The machine enters these functions through [node.events],
    [node.transition], [node.initialState] and [machine.states], and state
    values are told apart by their [JSON.stringify]; StateNode.ts is not
    under src/, so these are the parameters of what follows, and nothing is
    assumed of them.  The recursion of the source is bounded by a [fuel];
    [None] is the answer of a run that was cut short, which the source does
    not have. *)

(** A step of a path: the state that is left and the event that leaves
    it. *)
Record Segment : Type := mkSegment {
  segment_state : StateValue;
  segment_event : string
}.

(** [AdjacencyMap]: for the id of a state and an event, the value of the next
    state ([adjacency[stateKey][event].state], the only field of the
    entry). *)
Definition AdjacencyMap : Type := list (string * list (string * StateValue)).

(** [PathsMap]: for the id of a state, the paths that lead to it. *)
Definition PathsMap : Type := list (string * list (list Segment)).

(** What [util] of [getSimplePaths] closes over and mutates. *)
Record Traversal : Type := mkTraversal {
  visited : gset string;
  path : list Segment;
  paths : PathsMap
}.

Section Paths.
(** [JSON.stringify] on a state value, and [JSON.parse] on such an id. *)
Variable stringify : StateValue → string.
Variable parse : string → StateValue.
(** [node.events]. *)
Variable events : list string.
(** The [value] of [node.transition(stateValue, event, context)], or what the
    call throws. *)
Variable transitionValue : StateValue → string → Result StateValue.
(** [node.initialState.value]. *)
Variable initialValue : StateValue.
(** Whether [machine.states] is truthy. *)
Variable machineStates : bool.

(** The loop of [findAdjacencies] over the events; [findAdjacencies] is the
    recursive call. *)
Fixpoint eachAdjacency
    (findAdjacencies : StateValue → AdjacencyMap → option (Result AdjacencyMap))
    (stateValue : StateValue) (stateKey : string) (events : list string)
    (adjacency : AdjacencyMap) : option (Result AdjacencyMap) :=
  match events with
  | [] => Some (Ok adjacency)
  | event :: rest =>
      match transitionValue stateValue event with
      | Throw message => Some (Throw message)
      | Ok nextValue =>
          match obj_get stateKey adjacency with
          | None => Some (Throw "TypeError: Cannot set property of undefined")
          | Some eventMap =>
              match
                findAdjacencies nextValue
                  (obj_set stateKey (obj_set event nextValue eventMap) adjacency)
              with
              | Some (Ok adjacency') =>
                  eachAdjacency findAdjacencies stateValue stateKey rest adjacency'
              | failed => failed
              end
          end
      end
  end.

(** [findAdjacencies]: a state whose id is in the map is done; otherwise it
    gets an empty entry, which every event then fills, the next state being
    explored at once. *)
Fixpoint findAdjacencies (fuel : nat) (stateValue : StateValue)
    (adjacency : AdjacencyMap) : option (Result AdjacencyMap) :=
  match fuel with
  | 0 => None
  | S fuel =>
      let stateKey := stringify stateValue in
      if obj_has stateKey adjacency then Some (Ok adjacency)
      else
        eachAdjacency (findAdjacencies fuel) stateValue stateKey events
          (obj_set stateKey [] adjacency)
  end.

(** [getAdjacencyMap]. *)
Definition getAdjacencyMap (fuel : nat) : option (Result AdjacencyMap) :=
  findAdjacencies fuel initialValue [].

Section Simple.
Variable adjacency : AdjacencyMap.

(** [paths[toPathId] = paths[toPathId] || []; paths[toPathId].push([...path])]. *)
Definition pushPath (toPathId : string) (t : Traversal) : Traversal :=
  mkTraversal (visited t) (path t)
    (obj_set toPathId (default [] (obj_get toPathId (paths t)) ++ [path t])
       (paths t)).

(** The loop of [util] over the events of [adjacency[fromPathId]]; [util] is
    the recursive call. *)
Fixpoint eachEvent (util : string → Traversal → option (Result Traversal))
    (fromPathId : string) (eventMap : list (string * StateValue))
    (events : list string) (t : Traversal) : option (Result Traversal) :=
  match events with
  | [] => Some (Ok t)
  | subEvent :: rest =>
      match obj_get subEvent eventMap with
      | None => Some (Throw "TypeError: Cannot read property 'state' of undefined")
      | Some nextStateValue =>
          if negb (truthy nextStateValue) then
            eachEvent util fromPathId eventMap rest t
          else
            let nextStateId := stringify nextStateValue in
            if bool_decide (nextStateId ∈ visited t) then
              eachEvent util fromPathId eventMap rest t
            else
              match
                util nextStateId
                  (mkTraversal (visited t)
                     (path t ++ [mkSegment (parse fromPathId) subEvent])
                     (paths t))
              with
              | Some (Ok t') => eachEvent util fromPathId eventMap rest t'
              | failed => failed
              end
      end
  end.

(** [util] of [getSimplePaths]; [path.pop()] on an empty path leaves it
    empty, and [keys] of a missing entry throws. *)
Fixpoint util (fuel : nat) (fromPathId toPathId : string) (t : Traversal)
  : option (Result Traversal) :=
  match fuel with
  | 0 => None
  | S fuel =>
      let t := mkTraversal ({[fromPathId]} ∪ visited t) (path t) (paths t) in
      let body :=
        if String.eqb fromPathId toPathId then Some (Ok (pushPath toPathId t))
        else
          match obj_get fromPathId adjacency with
          | None =>
              Some (Throw "TypeError: Cannot convert undefined or null to object")
          | Some eventMap =>
              eachEvent (λ nextStateId t, util fuel nextStateId toPathId t)
                fromPathId eventMap (keys eventMap) t
          end in
      match body with
      | Some (Ok t) =>
          Some (Ok (mkTraversal (visited t ∖ {[fromPathId]})
                      (removelast (path t)) (paths t)))
      | failed => failed
      end
  end.

(** [keys(adjacency).forEach(nextStateId => util(initialStateId, nextStateId))]. *)
Fixpoint forEachTarget (fuel : nat) (initialStateId : string)
    (targets : list string) (t : Traversal) : option (Result Traversal) :=
  match targets with
  | [] => Some (Ok t)
  | nextStateId :: rest =>
      match util fuel initialStateId nextStateId t with
      | Some (Ok t') => forEachTarget fuel initialStateId rest t'
      | failed => failed
      end
  end.

(** What [getSimplePaths] does once it has the adjacency map: the search from
    the initial state to every state of the map.  The recursion of [util]
    is never deeper than the map has entries, which is the fuel. *)
Definition simplePathsOver (initialStateId : string) : option (Result PathsMap) :=
  match
    forEachTarget (S (length adjacency)) initialStateId (keys adjacency)
      (mkTraversal ∅ [] [])
  with
  | Some (Ok t) => Some (Ok (paths t))
  | Some (Throw message) => Some (Throw message)
  | None => None
  end.

(** A walk along the map: the ids it leaves, in order, its segments, and where
    it ends.  An entry with a falsy value is no edge. *)
Inductive walk : string → list string → list Segment → string → Prop :=
| walk_here a : walk a [] [] a
| walk_edge a eventMap e v ids segs c :
    obj_get a adjacency = Some eventMap →
    obj_get e eventMap = Some v →
    truthy v = true →
    walk (stringify v) ids segs c →
    walk a (a :: ids) (mkSegment (parse a) e :: segs) c.

(** A simple path: a walk that is at no id twice. *)
Definition simplePath (a : string) (segs : list Segment) (c : string) : Prop :=
  ∃ ids, walk a ids segs c ∧ NoDup (ids ++ [c]).

(** A map is closed when every edge leads to a state of the map. *)
Definition closed : Prop :=
  ∀ a eventMap e v,
    obj_get a adjacency = Some eventMap →
    obj_get e eventMap = Some v →
    truthy v = true →
    stringify v ∈ keys adjacency.

(** What a call of [util] starts from: the path so far is a walk from the
    initial state to [fromPathId], the ids it left are the visited ones, and
    the fuel covers the ids that are left. *)
Definition util_pre (initialStateId : string) (fuel : nat) (ids : list string)
    (fromPathId : string) (t : Traversal) : Prop :=
  walk initialStateId ids (path t) fromPathId
  ∧ visited t = list_to_set ids
  ∧ NoDup (ids ++ [fromPathId])
  ∧ length adjacency < fuel + length ids.
End Simple.

(** [new] is [old] with [added] pushed under [toPathId]. *)
Definition extends (toPathId : string) (added : list (list Segment))
    (old new : PathsMap) : Prop :=
  (∀ k, k ≠ toPathId → obj_get k new = obj_get k old)
  ∧ default [] (obj_get toPathId new) = default [] (obj_get toPathId old) ++ added.

(** What a call of [util] leaves: the visited ids and the path as they were
    before the call and its push, and under [toPathId] exactly the simple
    continuations of the path; it throws only over a map that is not closed. *)
Definition util_post (adjacency : AdjacencyMap) (toPathId : string)
    (ids : list string) (fromPathId : string) (t : Traversal)
    (r : Result Traversal) : Prop :=
  match r with
  | Ok t' =>
      visited t' = visited t
      ∧ path t' = removelast (path t)
      ∧ ∃ added,
          extends toPathId added (paths t) (paths t')
          ∧ ∀ q, q ∈ added ↔
                 ∃ ids2 segs2,
                   q = path t ++ segs2
                   ∧ walk adjacency fromPathId ids2 segs2 toPathId
                   ∧ NoDup (ids ++ ids2 ++ [toPathId])
  | Throw _ => ¬ (closed adjacency ∧ fromPathId ∈ keys adjacency)
  end.

(** [getSimplePaths]. *)
Definition getSimplePaths (fuel : nat) : option (Result PathsMap) :=
  if negb machineStates then Some (Ok [])
  else
    match getAdjacencyMap fuel with
    | Some (Ok adjacency) => simplePathsOver adjacency (stringify initialValue)
    | Some (Throw message) => Some (Throw message)
    | None => None
    end.

(** The values the machine can be in: the initial one, and where the events
    take a reachable one. *)
Inductive reachable : StateValue → Prop :=
| reachable_initial : reachable initialValue
| reachable_next stateValue event nextValue :
    reachable stateValue →
    event ∈ events →
    transitionValue stateValue event = Ok nextValue →
    reachable nextValue.

(** An entry of the map. *)
Definition edge (adjacency : AdjacencyMap) (stateKey event : string)
    (nextValue : StateValue) : Prop :=
  ∃ eventMap,
    obj_get stateKey adjacency = Some eventMap
    ∧ obj_get event eventMap = Some nextValue.

(** The ids of a map, as a set. *)
Definition keyset (adjacency : AdjacencyMap) : gset string :=
  list_to_set (keys adjacency).

(** The exploration only adds: ids stay, and so does what is recorded for an
    id and an event, up to its value. *)
Definition grows (old new : AdjacencyMap) : Prop :=
  (∀ k, is_Some (obj_get k old) → is_Some (obj_get k new))
  ∧ (∀ k e, (∃ w, edge old k e w) → ∃ w, edge new k e w).

(** What the exploration adds: entries that are transitions of a reachable
    state and lead into the map, and ids of reachable states with an entry
    for every event. *)
Definition found (old new : AdjacencyMap) : Prop :=
  (∀ k e w, edge new k e w →
     edge old k e w
     ∨ (e ∈ events
        ∧ (∃ sv, reachable sv ∧ stringify sv = k ∧ transitionValue sv e = Ok w)
        ∧ is_Some (obj_get (stringify w) new)))
  ∧ (∀ k, is_Some (obj_get k new) →
       is_Some (obj_get k old)
       ∨ ((∀ e, e ∈ events → ∃ w, edge new k e w)
          ∧ ∃ sv, reachable sv ∧ stringify sv = k)).

(** What a call of [findAdjacencies] leaves. *)
Definition find_post (stateValue : StateValue) (old : AdjacencyMap)
    (r : Result AdjacencyMap) : Prop :=
  match r with
  | Ok new =>
      grows old new ∧ found old new ∧ is_Some (obj_get (stringify stateValue) new)
  | Throw message =>
      ∃ sv e, reachable sv ∧ e ∈ events ∧ transitionValue sv e = Throw message
  end.
End Paths.

(** ** The paths of [getShortestPaths]

    [getShortestPaths] searches the same adjacency map, depth first, keeping
    one path per state id and replacing it when a shorter one turns up at a
    state that is being left. *)

Module ShortestPaths.

(** [PathMap]: for the id of a state, one path that leads to it. *)
Definition PathMap : Type := list (string * list Segment).

(** What [util] of [getShortestPaths] closes over and mutates. *)
Record Search : Type := mkSearch {
  visited : gset string;
  pathMap : PathMap
}.

Section Shortest.
(** [JSON.stringify] on a state value, and [machine.delimiter]. *)
Variable stringify : StateValue → string.
Variable delimiter : string.
Variable adjacency : AdjacencyMap.

(** The first loop of [util]: a next state gets the path of this state and
    one more segment when it has no path yet, or a longer one; [length] of a
    missing path of this state throws. *)
Fixpoint relaxEach (stateValue : StateValue) (stateId : string)
    (eventMap : list (string * StateValue)) (events : list string)
    (pathMap : PathMap) : Result PathMap :=
  match events with
  | [] => Ok pathMap
  | event :: rest =>
      match obj_get event eventMap with
      | None => Throw "TypeError: Cannot read property 'state' of undefined"
      | Some nextStateValue =>
          if negb (truthy nextStateValue) then
            relaxEach stateValue stateId eventMap rest pathMap
          else
            let nextStateId :=
              stringify (toStateValue (LikeValue nextStateValue) delimiter) in
            let extended :=
              obj_set nextStateId
                (default [] (obj_get stateId pathMap)
                 ++ [mkSegment stateValue event])
                pathMap in
            match obj_get nextStateId pathMap with
            | None => relaxEach stateValue stateId eventMap rest extended
            | Some known =>
                match obj_get stateId pathMap with
                | None =>
                    Throw "TypeError: Cannot read property 'length' of undefined"
                | Some here =>
                    if length here + 1 <? length known then
                      relaxEach stateValue stateId eventMap rest extended
                    else relaxEach stateValue stateId eventMap rest pathMap
                end
            end
      end
  end.

(** The second loop of [util]: the next states that are not visited are
    searched in turn; [util] is the recursive call. *)
Fixpoint visitEach (util : StateValue → Search → option (Result Search))
    (eventMap : list (string * StateValue)) (events : list string)
    (s : Search) : option (Result Search) :=
  match events with
  | [] => Some (Ok s)
  | event :: rest =>
      match obj_get event eventMap with
      | None => Some (Throw "TypeError: Cannot read property 'state' of undefined")
      | Some nextStateValue =>
          if negb (truthy nextStateValue) then visitEach util eventMap rest s
          else if bool_decide (stringify nextStateValue ∈ visited s) then
            visitEach util eventMap rest s
          else
            match util nextStateValue s with
            | Some (Ok s') => visitEach util eventMap rest s'
            | failed => failed
            end
      end
  end.

(** [util] of [getShortestPaths]. *)
Fixpoint util (fuel : nat) (stateValue : StateValue) (s : Search)
  : option (Result Search) :=
  match fuel with
  | 0 => None
  | S fuel =>
      let stateId := stringify stateValue in
      match obj_get stateId adjacency with
      | None => Some (Throw "TypeError: Cannot convert undefined or null to object")
      | Some eventMap =>
          match
            relaxEach stateValue stateId eventMap (keys eventMap) (pathMap s)
          with
          | Throw message => Some (Throw message)
          | Ok relaxed =>
              visitEach (util fuel) eventMap (keys eventMap)
                (mkSearch ({[stateId]} ∪ visited s) relaxed)
          end
      end
  end.

(** What [getShortestPaths] does once it has the adjacency map.  The
    recursion of [util] is never deeper than the map has entries, which is
    the fuel. *)
Definition shortestPathsOver (initialValue : StateValue)
  : option (Result PathMap) :=
  match
    util (S (length adjacency)) initialValue
      (mkSearch ∅ [(stringify initialValue, [])])
  with
  | Some (Ok s) => Some (Ok (pathMap s))
  | Some (Throw message) => Some (Throw message)
  | None => None
  end.

(** A path that leads to a state id: from the initial state, each segment
    leaving the state the one before has reached, along an edge of the
    map. *)
Inductive leadsTo (initialStateId : string) : string → list Segment → Prop :=
| leadsTo_initial : leadsTo initialStateId initialStateId []
| leadsTo_edge stateValue eventMap event nextValue p :
    leadsTo initialStateId (stringify stateValue) p →
    obj_get (stringify stateValue) adjacency = Some eventMap →
    obj_get event eventMap = Some nextValue →
    truthy nextValue = true →
    leadsTo initialStateId (stringify nextValue) (p ++ [mkSegment stateValue event]).

(** The ids the edges of the map reach from the initial state. *)
Inductive reached (initialStateId : string) : string → Prop :=
| reached_initial : reached initialStateId initialStateId
| reached_edge a eventMap event nextValue :
    reached initialStateId a →
    obj_get a adjacency = Some eventMap →
    obj_get event eventMap = Some nextValue →
    truthy nextValue = true →
    reached initialStateId (stringify nextValue).

(** The values of the map are in the form [toStateValue] gives them, as far
    as their id tells: no next state is a dotted string. *)
Definition normal : Prop :=
  ∀ a eventMap event nextValue,
    obj_get a adjacency = Some eventMap →
    obj_get event eventMap = Some nextValue →
    truthy nextValue = true →
    stringify (toStateValue (LikeValue nextValue) delimiter)
    = stringify nextValue.

(** Every edge that leaves [a] ends in [ids]. *)
Definition leavesInto (a : string) (ids : gset string) : Prop :=
  ∀ eventMap event nextValue,
    obj_get a adjacency = Some eventMap →
    obj_get event eventMap = Some nextValue →
    truthy nextValue = true →
    stringify nextValue ∈ ids.

(** What holds of the search between two steps: every path leads to its id,
    the initial state has the empty path, and every visited id has a
    path. *)
Definition consistent (initialStateId : string) (s : Search) : Prop :=
  (∀ id p, obj_get id (pathMap s) = Some p → leadsTo initialStateId id p)
  ∧ obj_get initialStateId (pathMap s) = Some []
  ∧ (∀ a, a ∈ visited s → is_Some (obj_get a (pathMap s))).

(** What a call of [util] on the state with id [stateId] leaves of a
    consistent search: a consistent search again, in which that state is
    visited, nothing visited or found is lost, and every edge that leaves a
    newly visited state ends in a visited one. *)
Definition searched (initialStateId stateId : string) (s : Search)
    (r : option (Result Search)) : Prop :=
  ∃ s', r = Some (Ok s')
        ∧ consistent initialStateId s'
        ∧ stateId ∈ visited s'
        ∧ visited s ⊆ visited s'
        ∧ (∀ id, is_Some (obj_get id (pathMap s)) →
                 is_Some (obj_get id (pathMap s')))
        ∧ (∀ a, a ∈ visited s' → a ∉ visited s → leavesInto a (visited s')).
End Shortest.

End ShortestPaths.

Section ShortestOfMachine.
Variable stringify : StateValue → string.
Variable delimiter : string.
Variable events : list string.
Variable transitionValue : StateValue → string → Result StateValue.
Variable initialValue : StateValue.
Variable machineStates : bool.

(** [getShortestPaths]. *)
Definition getShortestPaths (fuel : nat)
  : option (Result ShortestPaths.PathMap) :=
  if negb machineStates then Some (Ok [])
  else
    match getAdjacencyMap stringify events transitionValue initialValue fuel with
    | Some (Ok adjacency) =>
        ShortestPaths.shortestPathsOver stringify delimiter adjacency initialValue
    | Some (Throw message) => Some (Throw message)
    | None => None
    end.
End ShortestOfMachine.

End Graph.

(** ** The interpreter, where it touches the stepper

    interpreter.ts is not under src/ (its test is): what follows in this
    module is modelled from the spec (§2, §4.6, §5, §6, §8). *)

Module Interpreter.
Import Types Utils Actions Stepper.

(** Modelled from the spec: the matching of identifiers in the table of
    pending sends (§4.6), missing with interpreter.ts; identifiers are
    compared structurally. *)
Fixpoint JSValue_eqb (a b : JSValue) : bool :=
  match a, b with
  | JSUndefined, JSUndefined | JSNull, JSNull => true
  | JSBoolean x, JSBoolean y => Bool.eqb x y
  | JSNumber x, JSNumber y => (x =? y)%Z
  | JSString x, JSString y => String.eqb x y
  | JSFunction x, JSFunction y => String.eqb x y
  | JSObject p, JSObject q =>
      (fix go (p q : list (string * JSValue)) : bool :=
         match p, q with
         | [], [] => true
         | (k, v) :: p', (k', v') :: q' =>
             String.eqb k k' && JSValue_eqb v v' && go p' q'
         | _, _ => false
         end) p q
  | _, _ => false
  end.

Section Service.
Context {V : Type} `{EqDecision V}.
Variable toSCXMLEvent : JSValue → JSValue.
Variable enterTargets :
  StateNode V → State V → list (NodeId * TransitionDefinition V) → JSValue
  → ExitEntry V.

(** Modelled from the spec: [initialState] of StateNode.ts is missing;
    §4.5 step 2 at the root: entering a compound node enters its initial
    child, entering a parallel node enters all its regions.  The result is
    the value below the node ([None] below a leaf) with the entry actions
    and the activities of the entered nodes, root first. *)
Fixpoint enterInitial (node : StateNode V)
  : option StateValue * (list (Action V) * list string) :=
  let below :=
    map (λ c, (key c, enterInitial c)) (children node) in
  match kind node with
  | Compound =>
      match initial node ≫= (λ k, (λ r, (k, r)) <$> obj_get k below) with
      | Some (k, (v, (entries, acts))) =>
          (Some match v with
                | Some v => SVObject [(k, v)]
                | None => SVString k
                end,
           (entry node ++ entries, activities node ++ acts))
      | None => (None, (entry node, activities node))
      end
  | Parallel =>
      (Some (SVObject (map (λ r, (r.1, default (SVObject []) r.2.1)) below)),
       (entry node ++ flat_map (λ r, r.2.2.1) below,
        activities node ++ flat_map (λ r, r.2.2.2) below))
  | _ => (None, (entry node, activities node))
  end.

(** Modelled from the spec: [initialState] of StateNode.ts is missing; §6:
    the configuration after the implicit init event: entry actions first,
    then the start of the activities of the entered nodes; assign actions
    folded, the others resolved (§4.5 steps 3 to 5). *)
Definition initialState (machine : StateNode V) (initialContext : gmap string V)
  : State V :=
  let '(v, (entries, acts)) := enterInitial machine in
  let collected := entries ++ map ActionStart acts in
  let (assignActions, otherActions) := partition collected isAssign in
  let context' :=
    default initialContext
      (updateContext (Some initialContext) initEventObject
         (omap assignOf assignActions)) in
  {| value := default (SVObject []) v;
     context := context';
     event := initEventObject;
     history := None;
     actions :=
       omap (resolveAction toSCXMLEvent context' initEventObject) otherActions;
     activity_map := list_to_map (map (λ a, (a, true)) acts);
     changed := false |}.

(** Modelled from the spec: the status of a service (§8 scenario 8),
    missing with interpreter.ts. *)
Inductive Status : Set := NotStarted | Running | Stopped.

(** Modelled from the spec: an entry of the cancellation table (§5),
    missing with interpreter.ts: a send that has not been delivered yet. *)
Record PendingSend : Type := {
  pending_id : JSValue;
  pending_event : JSValue;
  pending_delay : Z
}.

(** Modelled from the spec: the class [Interpreter] (interpreter.ts) is
    missing; §5 and §6: the service owns the current configuration, what the
    logger has received so far (oldest first), and the table of the sends
    not yet delivered, tracked by identifier. *)
Record Service : Type := {
  machine : StateNode V;
  status : Status;
  state : State V;
  logged : list (option string * Any V);
  pending : list PendingSend
}.

(** Modelled from the spec: [interpret] (interpreter.ts) is missing; §6: a
    service that has not been started, at the initial configuration. *)
Definition interpret (machine : StateNode V) (initialContext : gmap string V)
  : Service :=
  {| machine := machine;
     status := NotStarted;
     state := initialState machine initialContext;
     logged := [];
     pending := [] |}.

(** Modelled from the spec: the execution of actions (interpreter.ts) is
    missing; §4.6: a log action goes to the logger; a send to this machine
    is deferred, entered in the table under its identifier; [cancel] removes
    the pending sends with the matching identifier. *)
Definition exec (service : Service) (action : ActionObject V) : Service :=
  match action with
  | ObjectLog lbl v =>
      {| machine := machine service; status := status service;
         state := state service;
         logged := logged service ++ [(lbl, v)];
         pending := pending service |}
  | ObjectSend a =>
      match send_to a, send_event a with
      | None, SendEventValue e =>
          {| machine := machine service; status := status service;
             state := state service;
             logged := logged service;
             pending :=
               pending service
               ++ [{| pending_id := send_id a;
                      pending_event := e;
                      pending_delay :=
                        match send_delay a with
                        | Some (SendDelayValue d) => d
                        | _ => 0%Z
                        end |}] |}
      | _, _ => service
      end
  | ObjectCancel c =>
      {| machine := machine service; status := status service;
         state := state service;
         logged := logged service;
         pending :=
           filter (λ p, negb (JSValue_eqb (pending_id p) (sendId c)))
                  (pending service) |}
  | _ => service
  end.

(** Modelled from the spec: the internal queue (interpreter.ts) is
    missing; §2: the event a raise action puts in it. *)
Definition raised (action : ActionObject V) : option JSValue :=
  match action with
  | ObjectRaise r => Some (raise_event r)
  | _ => None
  end.

(** Modelled from the spec: the macrostep of interpreter.ts is missing; §2
    and §8 scenario 8: the actions of a microstep are executed and its
    raised events fed back, in order, until none is left; [fuel] bounds the
    number of nested microsteps.  A configuration reported as unchanged
    still carries the actions of the step before it; they are not run again,
    so that sending is a no-op when no transition matches. *)
Fixpoint macrostep (fuel : nat) (service : Service) (event : JSValue)
  : Result Service :=
  match fuel with
  | O => Throw "macrostep: out of fuel"
  | S fuel' =>
      next ← transition toSCXMLEvent enterTargets
               (machine service) (state service) event;
      let fresh := if changed next then actions next else [] in
      let service' :=
        foldl exec
          {| machine := machine service; status := status service;
             state := next; logged := logged service;
             pending := pending service |}
          fresh in
      foldl (λ acc e, s ← acc; macrostep fuel' s e) (Ok service')
            (omap raised fresh)
  end.

(** Modelled from the spec: [Service.start] (interpreter.ts) is missing;
    §6: the actions of the initial configuration run. *)
Definition start (service : Service) : Service :=
  foldl exec
    {| machine := machine service; status := Running;
       state := state service; logged := logged service;
       pending := pending service |}
    (actions (state service)).

(** Modelled from the spec: [Service.send] (interpreter.ts) is missing; §8
    scenario 8 and the interpreter tests: an error before [start], nothing
    once stopped. *)
Definition sendEvent (fuel : nat) (service : Service) (event : JSValue)
  : Result Service :=
  match status service with
  | NotStarted => Throw "Event sent to uninitialized service"
  | Stopped => Ok service
  | Running => macrostep fuel service event
  end.

(** Modelled from the spec: [Service.stop] (interpreter.ts) is missing;
    §6. *)
Definition stop (service : Service) : Service :=
  {| machine := machine service; status := Stopped;
     state := state service; logged := logged service;
     pending := pending service |}.
End Service.

Arguments Service : clear implicits.
Arguments PendingSend : clear implicits.

End Interpreter.

(** ** The machines of the interpreter tests, as normalized definitions *)

Module Fixtures.
Import Types Utils Actions Stepper Interpreter.

(** A leaf node with a transition table and entry and exit actions. *)
Definition atomicNode (k : string)
    (on : list (string * list (TransitionDefinition Z)))
    (entry exit : list (Action Z)) : StateNode Z :=
  {| key := k; kind := Atomic; initial := None; children := [];
     on := on; always := []; entry := entry; exit := exit; activities := [] |}.

(** The shorthand [EVENT: "target"] (§4.2). *)
Definition goTo (k : string) : TransitionDefinition Z :=
  {| target := [k]; transition_actions := []; cond := None; internal := false |}.

(** [actions.send(event, { delay })] as an entry action. *)
Definition sendAction (event : JSValue) (delay : Z) : list (Action Z) :=
  match send toEventObject (SendEventValue event)
          (Some {| options_id := None;
                   options_delay := Some (SendDelayValue delay);
                   options_to := None |}) with
  | Ok a => [ActionSend a]
  | Throw _ => []
  end.

(** [lightMachine]; the [after] timer of [red] is normalized into an entry
    send of the delayed event and a transition on it. *)
Definition lightMachine : StateNode Z :=
  {| key := "light"; kind := Compound; initial := Some "green";
     children :=
       [ atomicNode "green"
           [("TIMER", [goTo "yellow"]);
            ("KEEP_GOING",
             [{| target := ["green"];
                 transition_actions := [ActionCancel (cancel (JSString "TIMER"))];
                 cond := None; internal := true |}])]
           (sendAction (JSString "TIMER") 10) [];
         atomicNode "yellow"
           [("TIMER", [goTo "red"])]
           (sendAction (JSString "TIMER") 10) [];
         atomicNode "red"
           [(after (inl 10%Z) (Some "light.red"), [goTo "green"])]
           (sendAction (JSString (after (inl 10%Z) (Some "light.red"))) 10)
           [ActionCancel (cancel (JSString (after (inl 10%Z) (Some "light.red"))))] ];
     on := []; always := []; entry := []; exit := []; activities := [] |}.

(** [ctx.count + 1]; a missing count is read as zero. *)
Definition increment (ctx : gmap string Z) (_ : JSValue) : Z :=
  (default 0 (ctx !! "count") + 1)%Z.

(** [logMachine]. *)
Definition logMachine : StateNode Z :=
  {| key := "log"; kind := Compound; initial := Some "x";
     children :=
       [ atomicNode "x"
           [("LOG",
             [{| target := [];
                 transition_actions :=
                   [ActionAssign
                      (assign (PropertyAssigner {[ "count" := PropFn increment ]}));
                    ActionLog (log (Some (λ ctx _, AnyContext ctx)) None)];
                 cond := None; internal := false |}])]
           [] [] ];
     on := []; always := []; entry := []; exit := []; activities := [] |}.

(** [context: { count: 0 }]. *)
Definition logContext : gmap string Z := {[ "count" := 0%Z ]}.

(** No transition of the fixtures that fires in the scenarios below leaves
    its state; this stand-in for the unmodelled part changes nothing. *)
Definition noExits (_ : StateNode Z) (state : State Z)
    (_ : list (NodeId * TransitionDefinition Z)) (_ : JSValue) : ExitEntry Z :=
  stay state.

(** The events of the light machine and where they take its values, as
    [machine.transition] answers: an event that a state does not handle
    leaves the value as it is, and a value that is no state of the machine
    throws. *)
Definition lightEvents : list string :=
  ["TIMER"; "KEEP_GOING"; after (inl 10%Z) (Some "light.red")].

Definition lightNext (stateValue : StateValue) (event : string)
  : Result StateValue :=
  match stateValue with
  | SVString s =>
      if String.eqb s "green" then
        Ok (SVString (if String.eqb event "TIMER" then "yellow" else "green"))
      else if String.eqb s "yellow" then
        Ok (SVString (if String.eqb event "TIMER" then "red" else "yellow"))
      else if String.eqb s "red" then
        Ok (SVString
              (if String.eqb event (after (inl 10%Z) (Some "light.red"))
               then "green" else "red"))
      else Throw ("Child state '" +:+ s +:+ "' does not exist on 'light'")
  | SVObject _ => Throw "State value is not a state of 'light'"
  end.

(** An id for the values of the light machine, which are strings: the string
    itself, where [JSON.stringify] adds quotes. *)
Definition lightId (stateValue : StateValue) : string :=
  match stateValue with
  | SVString s => s
  | SVObject _ => "{}"
  end.

End Fixtures.

(* ================================================================= *)
(** * Properties *)

Import Types Utils Actions Stepper Interpreter Fixtures.

(** ** Objects as association lists *)


Lemma obj_get_set_eq {A : Type} (key : string) (v : A) object :
  obj_get key (obj_set key v object) = Some v.
Proof.
  induction object as [|[k w] rest IH]; simpl.
  - by rewrite String.eqb_refl.
  - destruct (String.eqb k key) eqn:E; simpl; rewrite E; [done | apply IH].
Qed.


Lemma obj_get_None {A : Type} (key : string) (object : list (string * A)) :
  obj_get key object = None ↔ key ∉ keys object.
Proof.
  induction object as [|[k u] rest IH]; simpl.
  - split; [intros _; apply not_elem_of_nil | done].
  - rewrite not_elem_of_cons. destruct (String.eqb_spec k key) as [-> | Hne].
    + split; [done | intros [? _]; done].
    + rewrite IH. split; [intros ?; split; congruence | intros [_ ?]; done].
Qed.

Lemma obj_set_fresh {A : Type} (key : string) (v : A) object :
  key ∉ keys object → obj_set key v object = object ++ [(key, v)].
Proof.
  induction object as [|[k u] rest IH]; simpl; [done|].
  rewrite not_elem_of_cons. intros [Hne Hrest].
  destruct (String.eqb_spec k key) as [-> | _]; [done|]. by rewrite IH.
Qed.

Lemma obj_get_Some_elem {A : Type} (key : string) (v : A) object :
  obj_get key object = Some v → (key, v) ∈ object.
Proof.
  induction object as [|[k u] rest IH]; simpl; [done|].
  destruct (String.eqb_spec k key) as [-> | _].
  - intros [= ->]. apply list_elem_of_here.
  - intros H. apply list_elem_of_further, IH, H.
Qed.


(** ** Paths of a value and their reassembly *)




Lemma toStatePaths_cons key sub rest :
  toStatePaths (SVObject ((key, sub) :: rest)) =
  match sub with
  | SVObject [] => [[key]]
  | _ => map (cons key) (toStatePaths sub)
  end ++ toStatePaths (SVObject rest).
Proof. reflexivity. Qed.





(** Distinct keys of a concrete mapping, by computation. *)
Ltac distinct_keys :=
  match goal with
  | |- ?P => refine (bool_decide_unpack P _); vm_compute; exact I
  end.


(** The value of the four toggles of the text editor, there and back. *)
Example pathsToStateValue_toggles :
  let v := SVObject [("bold", SVString "on"); ("italics", SVString "off");
                     ("underline", SVString "off"); ("list", SVString "none")] in
  toStatePaths v
  = [["bold"; "on"]; ["italics"; "off"]; ["underline"; "off"]; ["list"; "none"]]
  ∧ pathsToStateValue (toStatePaths v) = Ok v.
Proof. by split. Qed.

(** Without the well-formedness the round trip can fail: a region that is an
    empty mapping comes back as a leaf. *)
Example pathsToStateValue_empty_region :
  pathsToStateValue (toStatePaths (SVObject [("a", SVObject [])]))
  = Ok (SVString "a").
Proof. reflexivity. Qed.

(** ** Splitting at the default delimiter *)


Lemma append_cons a (s t : string) : String a s +:+ t = String a (s +:+ t).
Proof. reflexivity. Qed.



Lemma append_snoc cur c rest :
  (cur +:+ String c "") +:+ rest = cur +:+ String c rest.
Proof.
  induction cur as [|a cur IH]; [done|]. rewrite !append_cons. by f_equal.
Qed.

Lemma length_snoc cur c :
  String.length (cur +:+ String c "") = S (String.length cur).
Proof.
  induction cur as [|a cur IH]; [done|]. rewrite append_cons. simpl. by rewrite IH.
Qed.



Lemma split_from_nonempty sep skip cur s : split_from sep skip cur s ≠ [].
Proof.
  revert skip cur. induction s as [|c rest IH]; intros skip cur;
    cbn [split_from]; [done|].
  destruct skip; [|apply IH].
  destruct (String.prefix sep (String c rest)); [done | apply IH].
Qed.




(** ** The depth bound of [matchesState] *)

Lemma matchesState_depth_object props :
  matchesState_depth (SVObject props) = S (depth_props props).
Proof. reflexivity. Qed.

Lemma depth_props_elem kv props :
  kv ∈ props → matchesState_depth kv.2 ≤ depth_props props.
Proof.
  induction props as [|kv' rest IH]; [by intros ?%elem_of_nil|].
  rewrite elem_of_cons. unfold depth_props. simpl. intros [-> | Hin]; [lia|].
  specialize (IH Hin). unfold depth_props in IH. lia.
Qed.

Lemma pathToStateValue_cons key rest :
  rest ≠ [] →
  pathToStateValue (key :: rest) = SVObject [(key, pathToStateValue rest)].
Proof. by destruct rest as [|b [|c r]]. Qed.

Lemma pathToStateValue_depth statePath :
  statePath ≠ [] →
  matchesState_depth (pathToStateValue statePath)
  ≤ length statePath + String.length (List.last statePath "").
Proof.
  induction statePath as [|a [|b rest] IH]; [done | simpl; lia |]. intros _.
  specialize (IH ltac:(done)).
  rewrite pathToStateValue_cons by done.
  rewrite matchesState_depth_object. unfold depth_props.
  cbn [foldr snd length]. cbn [length] in IH.
  change (List.last (a :: b :: rest) "") with (List.last (b :: rest) "").
  lia.
Qed.

Lemma split_from_depth sep skip cur s :
  length (split_from sep skip cur s)
  + String.length (List.last (split_from sep skip cur s) "")
  ≤ S (String.length cur + String.length s).
Proof.
  revert skip cur. induction s as [|c rest IH]; intros skip cur.
  - simpl. lia.
  - cbn [split_from String.length]. destruct skip as [|n].
    + destruct (String.prefix sep (String c rest)).
      * specialize (IH (String.length sep - 1) ""). simpl in IH.
        pose proof (split_from_nonempty sep (String.length sep - 1) "" rest) as Hne.
        destruct (split_from sep (String.length sep - 1) "" rest) as [|x xs] eqn:E;
          [done|].
        cbn [length]. change (List.last (cur :: x :: xs) "") with (List.last (x :: xs) "").
        cbn [length] in IH. lia.
      * specialize (IH 0 (cur +:+ String c "")).
        rewrite length_snoc in IH. lia.
    + specialize (IH n cur). lia.
Qed.

Lemma split_depth s sep :
  matchesState_depth (pathToStateValue (split s sep)) ≤ S (String.length s).
Proof.
  destruct sep as [|d sep].
  - unfold split. destruct s as [|c rest]; [simpl; lia|].
    etrans; [apply pathToStateValue_depth; done|].
    rewrite length_map.
    assert (∀ l : list ascii, l ≠ [] →
              String.length (List.last (map (λ c, String c "") l) "") = 1) as Hlast.
    { clear. induction l as [|a [|b l] IH]; [done | done |]. intros _.
      change (map _ (a :: b :: l)) with
        (String a "" :: map (λ c, String c "") (b :: l)).
      change (List.last (String a "" :: map (λ c, String c "") (b :: l)) "")
        with (List.last (map (λ c, String c "") (b :: l)) "").
      by apply IH. }
    rewrite Hlast by done.
    assert (∀ t, length (String.list_ascii_of_string t) = String.length t) as Hl.
    { clear. induction t as [|a t IH]; simpl; [done | by rewrite IH]. }
    rewrite Hl. simpl. lia.
  - etrans; [apply pathToStateValue_depth, split_from_nonempty|].
    unfold split. pose proof (split_from_depth (String d sep) 0 "" s) as H.
    simpl in H. lia.
Qed.

Lemma toStateValue_depth v delimiter :
  matchesState_depth (toStateValue (LikeValue v) delimiter) ≤ matchesState_depth v.
Proof.
  unfold toStateValue. destruct (isState v) eqn:E.
  - destruct v as [s|props]; [done|].
    destruct (obj_get "value" props) as [w|] eqn:Hw; simpl; [|lia].
    apply obj_get_Some_elem, depth_props_elem in Hw. simpl in Hw.
    unfold depth_props in Hw. lia.
  - destruct v as [s|props]; [|done]. apply split_depth.
Qed.

Lemma every_is_Some {A : Type} (f : A → option bool) l :
  (∀ x, x ∈ l → is_Some (f x)) → is_Some (every f l).
Proof.
  induction l as [|x rest IH]; intros Hall; simpl; [by eexists|].
  destruct (Hall x ltac:(apply list_elem_of_here)) as [[|] ->]; [|by eexists].
  apply IH. intros y Hy. apply Hall. by apply list_elem_of_further.
Qed.


(** [matchesState] returns on every input: the fuel it is given suffices. *)
Lemma matchesState_fuel_total fuel parent child delimiter :
  matchesState_depth parent < fuel →
  is_Some (matchesState_fuel fuel parent child delimiter).
Proof.
  revert parent child delimiter.
  induction fuel as [|fuel IH]; intros parent child delimiter Hfuel; [lia|].
  cbn [matchesState_fuel].
  pose proof (toStateValue_depth parent delimiter) as Hd.
  destruct (toStateValue (LikeValue child) delimiter) as [c|childProps];
    destruct (toStateValue (LikeValue parent) delimiter) as [p|parentProps];
    try by eexists.
  apply every_is_Some. intros kv Hkv.
  destruct (obj_get kv.1 childProps); [|by eexists].
  apply IH. apply depth_props_elem in Hkv.
  rewrite matchesState_depth_object in Hd. lia.
Qed.

(** ** Regions of a value *)




Lemma isState_single key sub : isState (SVObject [(key, sub)]) = false.
Proof.
  unfold isState, obj_has. cbn [obj_get].
  destruct (String.eqb_spec key "value") as [-> | _]; [|done].
  reflexivity.
Qed.








(** A dotted pattern is read as the path it abbreviates. *)
Example matchesState_dotted :
  matchesState (SVString "red.walk") (SVObject [("red", SVString "walk")])
    STATE_DELIMITER = true
  ∧ matchesState (SVObject [("a", SVString "b.c")]) (SVString "a.b.c.d")
      STATE_DELIMITER = true
  ∧ matchesState (SVString "a.b") (SVString "a") STATE_DELIMITER = false.
Proof. by repeat split. Qed.

(** Below the top level the delimiter is the default one whatever the
    caller passed: with [/] as delimiter the nested ["b/c"] is not split. *)
Example matchesState_nested_delimiter :
  matchesState (SVString "a/b/c")
    (SVObject [("a", SVObject [("b", SVString "c")])]) "/" = true
  ∧ matchesState (SVObject [("a", SVString "b/c")])
      (SVObject [("a", SVObject [("b", SVString "c")])]) "/" = false.
Proof. by split. Qed.


(** ** History *)




(** The fall back, run: leaving [method] for [review] keeps what [method]
    remembered. *)
Example updateHistoryValue_falls_back :
  updateHistoryValue
    (mkHistoryValue (Some (SVObject [("method", SVString "check")]))
       [("method", Some (mkHistoryValue (Some (SVString "check")) []))])
    (SVString "review")
  = mkHistoryValue (Some (SVString "review"))
      [("method", Some (mkHistoryValue (Some (SVString "check")) []))].
Proof. reflexivity. Qed.

(** ** Context assignment *)

Section ContextFacts.
Context {V : Type}.
Implicit Types (ctx acc : gmap string V) (event : JSValue).

(** What an updater of a per-key assignment evaluates to. *)
Lemma propertyUpdate_lookup (props : gmap string (PropAssignment V)) acc event k :
  propertyUpdate props acc event !! k =
  (λ u, match u with PropFn f => f acc event | PropValue v => v end) <$> props !! k.
Proof.
  unfold propertyUpdate.
  apply (map_fold_weak_ind
           (λ r m, r !! k = (λ u, match u with
                                  | PropFn f => f acc event
                                  | PropValue v => v
                                  end) <$> m !! k)).
  - by rewrite !lookup_empty.
  - intros key u m r Hfresh IH. destruct (decide (key = k)) as [-> | Hne].
    + by rewrite !lookup_insert_eq.
    + by rewrite !lookup_insert_ne.
Qed.

Lemma updateContext_snoc ctx event (assigns : list (AssignAction V)) last acc :
  updateContext (Some ctx) event assigns = Some acc →
  updateContext (Some ctx) event (assigns ++ [last]) =
  Some (match assignment last with
        | Assigner f => f acc (if js_truthy event then event else initEventObject)
        | PropertyAssigner props => propertyUpdate props acc event
        end ∪ acc).
Proof.
  unfold updateContext. intros [= <-]. by rewrite foldl_snoc.
Qed.

(** C4. [updateContext ctx e assigns] folds the assignments left to
    right: nothing changes for the empty list, and the last assignment of a
    list works on the accumulator [acc] that the assignments before it
    leave.  A whole-context function is applied to [acc] and its partial
    result is merged over [acc]; a per-key map has each updater, function
    or literal, evaluated against [acc], and the keys it names are merged
    over [acc]. *)
Theorem updateContext_folds_left ctx event (assigns : list (AssignAction V))
    (last : AssignAction V) :
  updateContext (Some ctx) event [] = Some ctx
  ∧ ∃ acc result,
      updateContext (Some ctx) event assigns = Some acc
      ∧ updateContext (Some ctx) event (assigns ++ [last]) = Some result
      ∧ ∀ k,
          result !! k =
          match assignment last with
          | Assigner f =>
              match f acc (if js_truthy event then event else initEventObject) !! k with
              | Some v => Some v
              | None => acc !! k
              end
          | PropertyAssigner props =>
              match props !! k with
              | Some (PropFn f) => Some (f acc event)
              | Some (PropValue v) => Some v
              | None => acc !! k
              end
          end.
Proof.
  split; [done|].
  destruct (updateContext (Some ctx) event assigns) as [acc|] eqn:Hacc; [|done].
  exists acc. eexists. split; [done|].
  split; [by apply updateContext_snoc|].
  intros k. rewrite lookup_union.
  destruct (assignment last) as [f|props].
  - destruct (f acc _ !! k), (acc !! k); done.
  - rewrite propertyUpdate_lookup.
    destruct (props !! k) as [[f|v]|], (acc !! k); done.
Qed.
End ContextFacts.

(** Without a context there is nothing to fold into. *)
Example updateContext_undefined (assigns : list (AssignAction Z)) :
  updateContext None (JSString "LOG") assigns = None.
Proof. reflexivity. Qed.

(** ** Event types made by the builders *)

(** C7. For every node identifier [id], [done id] is an event whose type is
    ["done.state."] followed by [id], and whose [toString] gives that type. *)
Theorem done_type_of_id (id : string) (data : option JSValue) :
  done_type (done id data) = "done.state." +:+ id
  ∧ done_toString (done id data) () = done_type (done id data).
Proof. split; reflexivity. Qed.



(** An empty identifier is falsy and adds no suffix either. *)
Example after_empty_id : after (inl 10%Z) (Some "") = "xstate.after(10)".
Proof. reflexivity. Qed.

(** ** Resolving the type of an event *)



(** Strings and typed objects resolve to their type. *)
Example getEventType_typed :
  getEventType (JSString "TIMER") = Ok (JSString "TIMER")
  ∧ getEventType (JSObject [("type", JSString "LOG"); ("count", JSNumber 1)])
    = Ok (JSString "LOG").
Proof. by split. Qed.

(** In the stepper the failure comes first: no configuration results. *)
Lemma transition_throws_with_getEventType {V : Type} `{EqDecision V}
    toSCXMLEvent enterTargets (machine : StateNode V) (c : State V) event message :
  getEventType event = Throw message →
  transition toSCXMLEvent enterTargets machine c event = Throw message.
Proof. unfold transition. by intros ->. Qed.

(** ** Identifiers of send actions *)

Lemma JSValue_eqb_string s : JSValue_eqb (JSString s) (JSString s) = true.
Proof. apply String.eqb_refl. Qed.

(** C10. For a non-function event and options without an [id], [send]
    gives a send action whose [id] is the type string of the event; so
    [cancel] of that type names this very action, and once the interpreter
    has run both, no send under that identifier is pending (the other
    pending sends stay). *)
Theorem send_id_is_event_type {V : Type}
    (toEventObject toSCXMLEvent : JSValue → JSValue)
    (event : JSValue) (options : option (SendActionOptions V)) (type : string)
    (service : Service V) (ctx : gmap string V) (trigger : JSValue) :
  options ≫= options_id = None →
  getEventType event = Ok (JSString type) →
  ∃ action,
    send toEventObject (SendEventValue event) options = Ok action
    ∧ send_id action = JSString type
    ∧ sendId (cancel (JSString type)) = send_id action
    ∧ pending
        (exec (exec service (ObjectSend (resolveSend toSCXMLEvent action ctx trigger)))
              (ObjectCancel (cancel (JSString type))))
      = filter (λ p, negb (JSValue_eqb (pending_id p) (JSString type)))
               (pending service).
Proof.
  intros Hid Htype. unfold send. rewrite Hid, Htype.
  eexists. split; [reflexivity|]. split; [done|]. split; [done|].
  cbn [exec resolveSend send_to send_event send_id send_delay].
  destruct (match options with Some o => options_to o | None => None end)
    as [[to|f]|]; cbn [exec pending sendId cancel]; try done.
  rewrite filter_app, filter_cons_False, filter_nil, app_nil_r; [done|].
  cbn [pending_id]. rewrite JSValue_eqb_string. cbn. tauto.
Qed.

Lemma send_id_is_event_type_witness :
  Some {| options_id := None;
          options_delay := Some (SendDelayValue (V:=Z) 10);
          options_to := None |} ≫= options_id = None
  ∧ getEventType (JSString "TIMER") = Ok (JSString "TIMER")
  ∧ ∃ action,
    send toEventObject (SendEventValue (JSString "TIMER"))
      (Some {| options_id := None;
               options_delay := Some (SendDelayValue 10);
               options_to := None |})
    = Ok action
    ∧ send_id action = JSString "TIMER"
    ∧ sendId (cancel (JSString "TIMER")) = send_id action
    ∧ pending
        (exec (exec (interpret id lightMachine ∅)
                 (ObjectSend (resolveSend id action ∅ initEventObject)))
              (ObjectCancel (cancel (JSString "TIMER"))))
      = filter (λ p, negb (JSValue_eqb (pending_id p) (JSString "TIMER")))
               (pending (interpret id lightMachine ∅)).
Proof.
  split; [reflexivity|]. split; [reflexivity|].
  apply (send_id_is_event_type (V:=Z) toEventObject id (JSString "TIMER")
           (Some {| options_id := None;
                    options_delay := Some (SendDelayValue 10);
                    options_to := None |})
           "TIMER" (interpret id lightMachine ∅) ∅ initEventObject);
    reflexivity.
Defined.

(** The cancelled delayed event of the light machine: the entry of [green]
    leaves a send pending under ["TIMER"], and [KEEP_GOING] cancels it. *)
Example lightMachine_cancel :
  let service := start (interpret id lightMachine ∅) in
  map pending_id (pending service) = [JSString "TIMER"]
  ∧ ∃ service',
      sendEvent id noExits 1 service (JSString "KEEP_GOING") = Ok service'
      ∧ pending service' = []
      ∧ value (state service') = SVString "green".
Proof. split; [reflexivity|]. eexists. split; [vm_compute; reflexivity|]. by split. Qed.

(** ** Events that nothing handles *)

Section StepperFacts.
Context {V : Type} `{EqDecision V}.
Variable toSCXMLEvent : JSValue → JSValue.
Variable enterTargets :
  StateNode V → State V → list (NodeId * TransitionDefinition V) → JSValue
  → ExitEntry V.

Lemma omap_all_None {A B : Type} (f : A → option B) l :
  Forall (λ x, f x = None) l → omap f l = [].
Proof.
  induction 1 as [|x l Hx _ IH]; [done|]. cbn [omap list_omap]. by rewrite Hx.
Qed.

Lemma selectWith_nothing pick (machine : StateNode V) v :
  Forall (λ chain, selectOnChain pick chain = None) (activeChains machine v) →
  selectWith pick machine v = [].
Proof.
  intros Hall. unfold selectWith. rewrite (omap_all_None _ _ Hall).
  unfold inDocumentOrder. apply omap_all_None. by apply Forall_forall.
Qed.

Lemma find_nothing {A : Type} (p : A → bool) l :
  forallb (λ x, negb (p x)) l = true → List.find p l = None.
Proof.
  induction l as [|x l IH]; [done|]. cbn [forallb List.find].
  intros [Hx Hl]%andb_prop. apply negb_true_iff in Hx. rewrite Hx. by apply IH.
Qed.

Lemma selectTransitions_nothing (machine : StateNode V) (c : State V) eventObject type :
  noTransitionMatches machine c eventObject type = true →
  selectTransitions machine (value c) (context c) eventObject type = [].
Proof.
  unfold noTransitionMatches, selectTransitions. intros Hno.
  apply selectWith_nothing. apply Forall_forall. intros chain Hchain.
  rewrite forallb_forall in Hno. apply list_elem_of_In in Hchain.
  specialize (Hno _ Hchain). clear Hchain.
  induction chain as [|[id node] chain IH]; [done|].
  cbn [forallb snd] in Hno. apply andb_prop in Hno as [Hnode Hrest].
  cbn [selectOnChain]. rewrite (find_nothing _ _ Hnode). by apply IH.
Qed.

Lemma selectEventless_nothing (machine : StateNode V) (c : State V) :
  noEventlessEnabled machine c = true →
  selectEventless machine (value c) = [].
Proof.
  unfold noEventlessEnabled, selectEventless. intros Hno.
  apply selectWith_nothing. apply Forall_forall. intros chain Hchain.
  rewrite forallb_forall in Hno. apply list_elem_of_In in Hchain.
  specialize (Hno _ Hchain). clear Hchain.
  induction chain as [|[id node] chain IH]; [done|].
  cbn [forallb snd] in Hno. apply andb_prop in Hno as [Hnode Hrest].
  cbn [selectOnChain]. destruct (always node); [|done]. by apply IH.
Qed.

(** C1. When no transition of the machine matches the event and no
    eventless transition is enabled, [transition c E] is [c] with the event
    updated and [changed] false; in particular its value is the value of
    [c]. *)
Theorem transition_without_match (machine : StateNode V) (c : State V)
    (E : JSValue) (type : string) :
  getEventType E = Ok (JSString type) →
  noTransitionMatches machine c (toEventObject E) type = true →
  noEventlessEnabled machine c = true →
  ∃ c',
    transition toSCXMLEvent enterTargets machine c E = Ok c'
    ∧ c' = {| value := value c;
              context := context c;
              event := toEventObject E;
              history := history c;
              actions := actions c;
              activity_map := activity_map c;
              changed := false |}
    ∧ value c' = value c.
Proof.
  intros Htype Hnone Heventless. eexists. split; [|split; reflexivity].
  unfold transition. rewrite Htype. cbn [mbind Result_bind].
  rewrite (selectTransitions_nothing _ _ _ _ Hnone).
  by rewrite (selectEventless_nothing _ _ Heventless).
Qed.
End StepperFacts.

Lemma transition_without_match_witness :
  getEventType (JSString "SOME_EVENT") = Ok (JSString "SOME_EVENT")
  ∧ noTransitionMatches lightMachine (initialState id lightMachine ∅)
      (toEventObject (JSString "SOME_EVENT")) "SOME_EVENT" = true
  ∧ noEventlessEnabled lightMachine (initialState id lightMachine ∅) = true
  ∧ ∃ c',
    transition id noExits lightMachine (initialState id lightMachine ∅)
      (JSString "SOME_EVENT") = Ok c'
    ∧ c' = {| value := value (initialState id lightMachine ∅);
              context := context (initialState id lightMachine ∅);
              event := toEventObject (JSString "SOME_EVENT");
              history := history (initialState id lightMachine ∅);
              actions := actions (initialState id lightMachine ∅);
              activity_map := activity_map (initialState id lightMachine ∅);
              changed := false |}
    ∧ value c' = value (initialState id lightMachine ∅).
Proof.
  split; [reflexivity|]. split; [reflexivity|]. split; [reflexivity|].
  apply (transition_without_match id noExits lightMachine
           (initialState id lightMachine ∅) (JSString "SOME_EVENT") "SOME_EVENT");
    reflexivity.
Defined.

(** After [start], sending an event that nothing handles is a no-op for the
    service, and before [start] it is an error. *)
Example lightMachine_unhandled_event :
  let service := interpret id lightMachine ∅ in
  (∃ message, sendEvent id noExits 1 service (JSString "SOME_EVENT") = Throw message)
  ∧ ∃ service',
      sendEvent id noExits 1 (start service) (JSString "SOME_EVENT") = Ok service'
      ∧ value (state service') = SVString "green"
      ∧ pending service' = pending (start service)
      ∧ logged service' = logged (start service).
Proof.
  split; [by eexists|]. eexists. split; [vm_compute; reflexivity|]. by repeat split.
Qed.

(** ** Assign, then log *)

(** C5. The machine with context [{count: 0}] whose [LOG] event fires
    [assign(count = count + 1)] and then [log(ctx => ctx)]: once the service
    is started and has received two [LOG] events, the logger has received
    exactly [{count: 1}] and then [{count: 2}]: the assignment is folded into
    the context before the log expression of the same step is evaluated. *)
Theorem log_sees_assigned_context
    (toSCXMLEvent : JSValue → JSValue)
    (enterTargets :
       StateNode Z → State Z → list (NodeId * TransitionDefinition Z) → JSValue
       → ExitEntry Z)
    (fuel : nat) :
  ∃ first second,
    sendEvent toSCXMLEvent enterTargets (S fuel)
      (start (interpret toSCXMLEvent logMachine logContext)) (JSString "LOG")
    = Ok first
    ∧ sendEvent toSCXMLEvent enterTargets (S fuel) first (JSString "LOG") = Ok second
    ∧ logged second
      = [(None, AnyContext {[ "count" := 1%Z ]});
         (None, AnyContext {[ "count" := 2%Z ]})].
Proof.
  eexists. eexists. split; [vm_compute; reflexivity|].
  split; [vm_compute; reflexivity|]. vm_compute. reflexivity.
Qed.


(* ================================================================= *)
(** * Further properties of the embedded code *)

(** ** Paths and values *)

Lemma pathToStateValue_not_empty_object statePath :
  statePath ≠ [] → pathToStateValue statePath ≠ SVObject [].
Proof. by destruct statePath as [|a [|b [|c rest]]]. Qed.

(** X1. The value of a path has that path as its only leaf path, provided
    the path is not empty and does not end in the empty string. *)
Theorem toStatePaths_pathToStateValue (statePath : list string) :
  statePath ≠ [] → List.last statePath "" ≠ "" →
  toStatePaths (pathToStateValue statePath) = [statePath].
Proof.
  induction statePath as [|a rest IH]; [done|]. intros _ Hlast.
  destruct rest as [|b rest].
  - cbn in Hlast. cbn [pathToStateValue toStatePaths].
    by destruct a.
  - rewrite pathToStateValue_cons by done. rewrite toStatePaths_cons.
    change (List.last (a :: b :: rest) "") with (List.last (b :: rest) "") in Hlast.
    specialize (IH ltac:(done) Hlast).
    pose proof (pathToStateValue_not_empty_object (b :: rest) ltac:(done)) as Hne.
    destruct (pathToStateValue (b :: rest)) as [s|[|kv m]] eqn:E; [| done |];
      rewrite IH; reflexivity.
Qed.

Lemma toStatePaths_pathToStateValue_witness :
  ["red"; "walk"; "blinking"] ≠ []
  ∧ List.last ["red"; "walk"; "blinking"] "" ≠ ""
  ∧ toStatePaths (pathToStateValue ["red"; "walk"; "blinking"])
    = [["red"; "walk"; "blinking"]].
Proof.
  split; [discriminate|]. split; [discriminate|].
  apply (toStatePaths_pathToStateValue ["red"; "walk"; "blinking"]); discriminate.
Defined.



Lemma toStatePaths_nonempty v : v ≠ SVObject [] → toStatePaths v ≠ [].
Proof.
  induction v as [s|props IH] using StateValue_nested_ind; intros Hv.
  - cbn [toStatePaths]. by destruct (truthy (SVString s)).
  - destruct props as [|[key sub] rest]; [done|].
    apply Forall_cons in IH as [IHsub _]. cbn [snd] in IHsub.
    rewrite toStatePaths_cons.
    destruct sub as [s|[|kv m]]; [| done |].
    + specialize (IHsub ltac:(done)).
      destruct (toStatePaths (SVString s)); done.
    + specialize (IHsub ltac:(done)).
      destruct (toStatePaths (SVObject (kv :: m))); done.
Qed.

Lemma elem_of_toStatePaths_object q props :
  q ∈ toStatePaths (SVObject props) ↔
  ∃ key sub, (key, sub) ∈ props ∧
    match sub with
    | SVObject [] => q = [key]
    | _ => ∃ q', q' ∈ toStatePaths sub ∧ q = key :: q'
    end.
Proof.
  induction props as [|[k sub] rest IH].
  - split; [by intros ?%elem_of_nil | by intros (? & ? & ?%elem_of_nil & _)].
  - rewrite toStatePaths_cons, elem_of_app, IH. split.
    + intros [Hq | (key & sub' & Hin & Hq)].
      * exists k, sub. split; [apply list_elem_of_here|].
        destruct sub as [s|[|kv m]].
        -- apply list_elem_of_fmap in Hq as (q' & -> & Hq'). by exists q'.
        -- by apply list_elem_of_singleton in Hq.
        -- apply list_elem_of_fmap in Hq as (q' & -> & Hq'). by exists q'.
      * exists key, sub'. split; [by apply list_elem_of_further | done].
    + intros (key & sub' & Hin & Hq). apply elem_of_cons in Hin as [[= -> ->] | Hin].
      * left. destruct sub as [s|[|kv m]].
        -- destruct Hq as (q' & Hq' & ->). apply list_elem_of_fmap. by exists q'.
        -- by apply list_elem_of_singleton.
        -- destruct Hq as (q' & Hq' & ->). apply list_elem_of_fmap. by exists q'.
      * right. by exists key, sub'.
Qed.

(** X3. The leaf paths of a mapping start with its region keys, and no
    region is lost: a key heads some path exactly when it is a key of the
    mapping, whatever the sub-values are. *)
Theorem toStatePaths_heads (props : list (string * StateValue)) (key : string) :
  (∃ q, key :: q ∈ toStatePaths (SVObject props)) ↔ key ∈ keys props.
Proof.
  split.
  - intros (q & Hq). apply elem_of_toStatePaths_object in Hq as (k & sub & Hin & Hq).
    unfold keys. apply list_elem_of_fmap. exists (k, sub). split; [|done].
    destruct sub as [s|[|kv m]].
    + by destruct Hq as (q' & _ & [= -> _]).
    + by injection Hq as -> _.
    + by destruct Hq as (q' & _ & [= -> _]).
  - unfold keys. intros ([k sub] & -> & Hin)%list_elem_of_fmap. cbn [fst].
    destruct sub as [s|[|kv m]].
    + destruct (toStatePaths (SVString s)) as [|q' qs] eqn:E;
        [by apply toStatePaths_nonempty in E|].
      exists q'. apply elem_of_toStatePaths_object. exists k, (SVString s).
      split; [done|]. exists q'. split; [|done]. rewrite E. apply list_elem_of_here.
    + exists []. apply elem_of_toStatePaths_object. by exists k, (SVObject []).
    + destruct (toStatePaths (SVObject (kv :: m))) as [|q' qs] eqn:E;
        [by apply toStatePaths_nonempty in E|].
      exists q'. apply elem_of_toStatePaths_object. exists k, (SVObject (kv :: m)).
      split; [done|]. exists q'. split; [|done]. rewrite E. apply list_elem_of_here.
Qed.

(** ** Reading values *)

Lemma append_empty_r (s : string) : s +:+ "" = s.
Proof. induction s as [|c s IH]; [done|]. rewrite append_cons. by f_equal. Qed.

Lemma split_from_single sep cur s x :
  split_from sep 0 cur s = [x] → x = cur +:+ s.
Proof.
  revert cur. induction s as [|c rest IH]; intros cur.
  - cbn [split_from]. intros [= <-]. by rewrite append_empty_r.
  - cbn [split_from]. destruct (String.prefix sep (String c rest)).
    + intros [= _ Hrest]. by apply split_from_nonempty in Hrest.
    + intros Hx. rewrite (IH _ Hx). apply append_snoc.
Qed.

Lemma split_single s sep x : split s sep = [x] → x = s.
Proof.
  destruct sep as [|d sep]; unfold split.
  - destruct s as [|c [|c' rest]]; [done | by intros [= <-] | done].
  - apply split_from_single.
Qed.

Lemma pathToStateValue_leaf statePath leaf :
  pathToStateValue statePath = SVString leaf → statePath = [leaf].
Proof. destruct statePath as [|a [|b rest]]; [done | by intros [= ->] | done]. Qed.

Lemma isState_pathToStateValue statePath : isState (pathToStateValue statePath) = false.
Proof.
  destruct statePath as [|a [|b rest]]; [done | done |].
  rewrite pathToStateValue_cons by done. apply isState_single.
Qed.

Lemma toStateValue_again (v : StateValue) (delimiter : string) :
  isState v = false →
  toStateValue (LikeValue (toStateValue (LikeValue v) delimiter)) delimiter
  = toStateValue (LikeValue v) delimiter.
Proof.
  intros Hv. destruct v as [s|props].
  - cbn [toStateValue isState toStatePath].
    pose proof (isState_pathToStateValue (split s delimiter)) as Hst.
    destruct (pathToStateValue (split s delimiter)) as [x|chain] eqn:E.
    + apply pathToStateValue_leaf in E as Hsplit.
      apply split_single in Hsplit as Hx. subst x.
      cbn [isState toStatePath]. by rewrite E.
    + by rewrite Hst.
  - unfold toStateValue at 2. rewrite Hv. unfold toStateValue. by rewrite Hv.
Qed.

(** X4. Reading a value twice is reading it once: for a string, or a
    mapping that is not shaped like a [State], [toStateValue] gives a value
    that [toStateValue] leaves as it is, with any delimiter. *)
Theorem toStateValue_idempotent (v : StateValue) (delimiter : string) :
  isState v = false →
  toStateValue (LikeValue (toStateValue (LikeValue v) delimiter)) delimiter
  = toStateValue (LikeValue v) delimiter.
Proof. apply toStateValue_again. Qed.

Lemma toStateValue_idempotent_witness :
  isState (SVString "red.walk") = false
  ∧ toStateValue (LikeValue (toStateValue (LikeValue (SVString "red.walk")) "."))
      "."
    = toStateValue (LikeValue (SVString "red.walk")) ".".
Proof.
  split; [reflexivity|].
  apply (toStateValue_idempotent (SVString "red.walk") "."). reflexivity.
Defined.

(** A [State]-shaped mapping is read through its [value], which is read
    again when it comes back. *)
Example toStateValue_state_shaped :
  let v := SVObject [("value", SVString "a.b"); ("tree", SVString "t");
                     ("history", SVString "h")] in
  toStateValue (LikeValue v) "." = SVString "a.b"
  ∧ toStateValue (LikeValue (toStateValue (LikeValue v) ".")) "."
    = SVObject [("a", SVString "b")].
Proof. by split. Qed.

Lemma every_mono {A : Type} (f g : A → option bool) l b :
  (∀ x b', x ∈ l → f x = Some b' → g x = Some b') →
  every f l = Some b → every g l = Some b.
Proof.
  induction l as [|x rest IH]; intros Hfg; [done|]. cbn [every].
  destruct (f x) as [[|]|] eqn:E; [| |done].
  - rewrite (Hfg x true (list_elem_of_here _ _) E).
    apply IH. intros y b' Hy. apply Hfg. by apply list_elem_of_further.
  - intros [= <-]. by rewrite (Hfg x false (list_elem_of_here _ _) E).
Qed.

(** More fuel does not change what [matchesState] has found. *)
Lemma matchesState_fuel_mono fuel :
  ∀ fuel' parent child delimiter b,
    fuel ≤ fuel' →
    matchesState_fuel fuel parent child delimiter = Some b →
    matchesState_fuel fuel' parent child delimiter = Some b.
Proof.
  induction fuel as [|fuel IH]; intros fuel' parent child delimiter b Hle; [done|].
  destruct fuel' as [|fuel']; [lia|]. cbn [matchesState_fuel].
  destruct (toStateValue (LikeValue child) delimiter) as [c|childProps];
    destruct (toStateValue (LikeValue parent) delimiter) as [p|parentProps];
    try done.
  apply every_mono. intros kv b' _.
  destruct (obj_get kv.1 childProps); [|done]. apply IH. lia.
Qed.

Lemma matchesState_at_fuel fuel parent child delimiter :
  matchesState_depth parent < fuel →
  matchesState_fuel fuel parent child delimiter
  = Some (matchesState parent child delimiter).
Proof.
  intros Hfuel. unfold matchesState.
  destruct (matchesState_fuel_total (S (matchesState_depth parent)) parent child
              delimiter (Nat.lt_succ_diag_r _)) as [b Hb].
  rewrite Hb. exact (matchesState_fuel_mono _ _ _ _ _ _ Hfuel Hb).
Qed.

(** X5. A dotted string and the value it abbreviates are interchangeable,
    as a pattern and as a value, with any delimiter. *)
Theorem matchesState_dotted_string (s : string) (other : StateValue)
    (delimiter : string) :
  matchesState (SVString s) other delimiter
  = matchesState (toStateValue (LikeValue (SVString s)) delimiter) other delimiter
  ∧ matchesState other (SVString s) delimiter
    = matchesState other (toStateValue (LikeValue (SVString s)) delimiter) delimiter.
Proof.
  pose proof (toStateValue_again (SVString s) delimiter eq_refl) as Hid.
  set (v := toStateValue (LikeValue (SVString s)) delimiter) in *.
  split.
  - set (fuel := S (Nat.max (matchesState_depth (SVString s)) (matchesState_depth v))).
    assert (Some (matchesState (SVString s) other delimiter)
            = Some (matchesState v other delimiter)) as [= ->]; [|done].
    rewrite <- (matchesState_at_fuel fuel (SVString s)) by (unfold fuel; lia).
    rewrite <- (matchesState_at_fuel fuel v) by (unfold fuel; lia).
    unfold fuel. cbn [matchesState_fuel]. fold v. by rewrite Hid.
  - set (fuel := S (matchesState_depth other)).
    assert (Some (matchesState other (SVString s) delimiter)
            = Some (matchesState other v delimiter)) as [= ->]; [|done].
    rewrite <- !(matchesState_at_fuel fuel other) by (unfold fuel; lia).
    unfold fuel. cbn [matchesState_fuel]. fold v. by rewrite Hid.
Qed.



(** ** Types of events and actions *)

Lemma getEventType_throws_nullish (event : JSValue) :
  (∃ message, getEventType event = Throw message) ↔ nullish event = true.
Proof.
  destruct event; cbn; split; try done; try by eexists.
  all: by intros [message Hm].
Qed.

(** X7. [getEventType] throws on [null] and on [undefined] and on nothing
    else: every other value, also an object without a [type], resolves
    without an error. *)
Theorem getEventType_throws_iff (event : JSValue) :
  (∃ message, getEventType event = Throw message) ↔ nullish event = true.
Proof. apply getEventType_throws_nullish. Qed.

(** X8. An action resolves its type like an event, except for a function,
    which is known by its name: on every other value [getActionType] and
    [getEventType] give the same type, and they throw on the same values. *)
Theorem getActionType_getEventType (action : JSValue) :
  match action with
  | JSFunction name => getActionType action = Ok (JSString name)
  | _ =>
      (∀ type, getActionType action = Ok type ↔ getEventType action = Ok type)
      ∧ ((∃ message, getActionType action = Throw message)
         ↔ (∃ message, getEventType action = Throw message))
  end.
Proof.
  destruct action; cbn; try done; split; try done.
  all: split; intros [message Hm]; try done; by eexists.
Qed.

(** ** Send actions *)

Section SendFacts.
Context {V : Type}.
Variable toEventObject toSCXMLEvent : JSValue → JSValue.
Variable SpecialTargets_Parent : JSValue.

(** X9. [send] throws exactly when no [id] is given and the event is the
    value [null] or [undefined]; with an [id], or with an expression as the
    event, it never throws. *)
Theorem send_throws_iff (event : SendEvent V) (options : option (SendActionOptions V)) :
  (∃ message, send toEventObject event options = Throw message)
  ↔ options ≫= options_id = None
    ∧ ∃ e, event = SendEventValue e ∧ nullish e = true.
Proof.
  unfold send. destruct (options ≫= options_id) as [id|] eqn:Hid.
  - split; [by intros [message Hm] | by intros [? _]].
  - destruct event as [e|name f].
    + pose proof (getEventType_throws_nullish e) as Hthrows.
      destruct (getEventType e) as [type|message] eqn:E.
      * split; [by intros [m Hm]|]. intros (_ & e' & [= <-] & Hnull).
        apply Hthrows in Hnull as [m Hm]. done.
      * split; [|by eexists]. intros _. split; [done|]. exists e.
        split; [done|]. apply Hthrows. by eexists.
    + split; [by intros [message Hm] | by intros (_ & e & ? & _)].
Qed.

(** [sendParent] is [send] but for the target: it throws when [send] does,
    and otherwise gives the action of [send] with the parent as its target,
    whatever target the options name. *)
Lemma sendParent_send (event : SendEvent V) (options : option (SendActionOptions V)) :
  sendParent toEventObject SpecialTargets_Parent event options
  = (action ← send toEventObject event options;
     Ok {| send_to := Some (SendTargetValue SpecialTargets_Parent);
           send_type := send_type action;
           send_event := send_event action;
           send_delay := send_delay action;
           send_id := send_id action |}).
Proof.
  unfold sendParent, send. cbn [mbind option_bind options_id options_delay options_to].
  destruct options as [o|]; cbn [mbind option_bind].
  - destruct (options_id o) as [id|]; [done|].
    destruct event as [e|name f]; [|done]. by destruct (getEventType e).
  - destruct event as [e|name f]; [|done]. by destruct (getEventType e).
Qed.

(** X10. A resolved send action is settled: resolving it again, against
    any other context and event, changes nothing, and resolving never
    touches the identifier. *)
Theorem resolveSend_idempotent (action : SendAction V)
    (ctx ctx' : gmap string V) (event event' : JSValue) :
  resolveSend toSCXMLEvent (resolveSend toSCXMLEvent action ctx event) ctx' event'
  = resolveSend toSCXMLEvent action ctx event
  ∧ send_id (resolveSend toSCXMLEvent action ctx event) = send_id action.
Proof.
  split; [|done]. unfold resolveSend.
  cbn [send_event send_delay send_to send_type send_id].
  destruct (send_event action) as [e|name h], (send_delay action) as [[d|f]|],
    (send_to action) as [[t|g]|]; reflexivity.
Qed.
End SendFacts.

(** ** Built-in events *)

Lemma prefix_append (s t : string) : String.prefix s (s +:+ t) = true.
Proof.
  induction s as [|c s IH]; [by destruct t|].
  rewrite append_cons. cbn [String.prefix].
  destruct (ascii_dec c c); [exact IH | done].
Qed.

Lemma append_assoc (s t u : string) : (s +:+ t) +:+ u = s +:+ t +:+ u.
Proof.
  induction s as [|c s IH]; [done|]. rewrite !append_cons. by f_equal.
Qed.

(** X11. Whatever the identifier, the events made by [done] and by
    [doneInvoke] are recognised by [isBuiltInEvent]. *)
Theorem isBuiltInEvent_done (ErrorCommunication id : string) (data : option JSValue) :
  isBuiltInEvent ErrorCommunication (done_type (done id data)) = true
  ∧ isBuiltInEvent ErrorCommunication (done_type (doneInvoke id data)) = true.
Proof.
  unfold isBuiltInEvent. cbn [done doneInvoke done_type].
  split.
  - by rewrite prefix_append.
  - rewrite (prefix_append ActionTypes.DoneInvoke_value). by rewrite orb_true_r.
Qed.

(** X12. A platform error event is not recognised as built-in, unless its
    type happens to be the communication error type itself: the only error
    type [isBuiltInEvent] compares with. *)
Theorem isBuiltInEvent_error (ErrorCommunication id : string) (data : option JSValue) :
  done_type (error id data) ≠ ErrorCommunication →
  isBuiltInEvent ErrorCommunication (done_type (error id data)) = false.
Proof.
  intros Hne. unfold isBuiltInEvent. cbn [error done_type] in *.
  destruct (String.eqb_spec (ActionTypes.ErrorPlatform_value +:+ "." +:+ id)
              ErrorCommunication) as [Heq | _]; [done|].
  reflexivity.
Qed.

Lemma isBuiltInEvent_error_witness :
  done_type (error "fetcher" None) ≠ "error.communication"
  ∧ isBuiltInEvent "error.communication" (done_type (error "fetcher" None)) = false.
Proof.
  split; [discriminate|].
  apply (isBuiltInEvent_error "error.communication" "fetcher" None). discriminate.
Defined.



(** ** Context assignment, composed *)

Section ContextMore.
Context {V : Type}.
Implicit Types (ctx acc : gmap string V) (event : JSValue).

(** Assigning a list in one go is assigning its parts one after the
    other, also when there is no context at all. *)
Lemma updateContext_app (context : option (gmap string V)) event
    (first second : list (AssignAction V)) :
  updateContext context event (first ++ second)
  = updateContext (updateContext context event first) event second.
Proof.
  destruct context as [ctx|]; [|done]. unfold updateContext. by rewrite foldl_app.
Qed.

(** X14. Assignments never remove a key: every key of the context is a key
    of the updated context, whatever the assignment functions return. *)
Theorem updateContext_keeps_keys ctx event (assigns : list (AssignAction V)) :
  ∃ result,
    updateContext (Some ctx) event assigns = Some result
    ∧ dom ctx ⊆ dom result.
Proof.
  unfold updateContext. eexists. split; [reflexivity|].
  revert ctx. induction assigns as [|a assigns IH]; intros ctx; [done|].
  cbn [foldl]. etrans; [|apply IH]. rewrite dom_union. set_solver.
Qed.

(** X15. Assigning literals twice is assigning them once. *)
Theorem updateContext_literals_idempotent (context : option (gmap string V)) event
    (props : gmap string (PropAssignment V)) :
  literalsOnly props →
  updateContext context event
    [assign (PropertyAssigner props); assign (PropertyAssigner props)]
  = updateContext context event [assign (PropertyAssigner props)].
Proof.
  intros Hlit. destruct context as [ctx|]; [|done].
  cbn [updateContext foldl assign assignment]. f_equal.
  assert (∀ acc acc', propertyUpdate props acc event = propertyUpdate props acc' event)
    as Hsame.
  { intros acc acc'. apply map_eq. intros k. rewrite !propertyUpdate_lookup.
    destruct (props !! k) as [u|] eqn:Hk; [|done].
    specialize (Hlit k u Hk). by destruct u. }
  rewrite (Hsame _ ctx). apply map_eq. intros k. rewrite !lookup_union.
  destruct (propertyUpdate props ctx event !! k), (ctx !! k); done.
Qed.
End ContextMore.

Lemma updateContext_literals_idempotent_witness :
  let props : gmap string (PropAssignment Z) := {[ "count" := PropValue 7%Z ]} in
  literalsOnly props
  ∧ updateContext (Some logContext) (JSString "RESET")
      [assign (PropertyAssigner props); assign (PropertyAssigner props)]
    = updateContext (Some logContext) (JSString "RESET")
        [assign (PropertyAssigner props)].
Proof.
  intros props.
  assert (literalsOnly props) as Hlit.
  { intros k u Hk. apply lookup_singleton_Some in Hk as [_ <-]. exact I. }
  split; [exact Hlit|].
  exact (updateContext_literals_idempotent (Some logContext) (JSString "RESET")
           props Hlit).
Defined.

(** A function updater does not have this: counting twice is not counting
    once. *)
Example updateContext_function_not_idempotent :
  let count := assign (PropertyAssigner {[ "count" := PropFn increment ]}) in
  updateContext (Some logContext) (JSString "LOG") [count; count]
  ≠ updateContext (Some logContext) (JSString "LOG") [count].
Proof. vm_compute. discriminate. Qed.

(** ** History, updated again *)

Lemma updateHistoryStates_again hist :
  ∀ stateValue cur,
    updateHistoryStates
      (mkHistoryValue cur (updateHistoryStates hist stateValue)) stateValue
    = updateHistoryStates hist stateValue.
Proof.
  induction hist as [cur0 sts IH] using HistoryValue_nested_ind.
  intros stateValue cur. cbn [updateHistoryStates]. unfold mapValues.
  rewrite map_map. apply map_ext_Forall.
  eapply Forall_impl; [exact IH|]. intros [key [sub|]] IHsub; cbn [fst snd] in *;
    [|done].
  f_equal.
  set (here := match stateValue with
               | SVString _ => None
               | SVObject props => obj_get key props
               end).
  destruct (truthyValue (orElse here (current sub))) as [x|] eqn:Hx; [|done].
  assert (truthy x = true) as Htruthy.
  { unfold truthyValue in Hx. destruct (orElse here (current sub)) as [y|]; [|done].
    destruct (truthy y) eqn:E; [|done]. by injection Hx as <-. }
  assert (truthyValue (orElse here (Some x)) = Some x) as Hagain.
  { unfold orElse, truthyValue in *. destruct here as [w|].
    - destruct (truthy w) eqn:Hw.
      + rewrite Hw in Hx. rewrite Hw. done.
      + by rewrite Htruthy.
    - by rewrite Htruthy. }
  cbn [current]. rewrite Hagain. by rewrite IHsub.
Qed.

(** X16. Recording the same value twice is recording it once. *)
Theorem updateHistoryValue_idempotent (hist : HistoryValue) (v : StateValue) :
  updateHistoryValue (updateHistoryValue hist v) v = updateHistoryValue hist v.
Proof.
  unfold updateHistoryValue. f_equal. apply updateHistoryStates_again.
Qed.



(** ** Objects and lists, mapped and split *)

Lemma mapFilterValues_from {T P : Type} (collection : list (string * T))
    (iteratee : T → string → P) (predicate : T → bool) (result : list (string * P)) :
  NoDup (keys collection) →
  (∀ key, key ∈ keys collection → key ∉ keys result) →
  foldl
    (λ result (kv : string * T),
       if predicate kv.2 then obj_set kv.1 (iteratee kv.2 kv.1) result
       else result)
    result collection
  = result
    ++ map (λ kv : string * T, (kv.1, iteratee kv.2 kv.1))
         (List.filter (λ kv : string * T, predicate kv.2) collection).
Proof.
  revert result. induction collection as [|[k item] rest IH]; intros result Hnd Hfresh.
  - cbn. by rewrite app_nil_r.
  - cbn [keys map fst] in Hnd. apply NoDup_cons in Hnd as [Hk Hnd].
    cbn [foldl List.filter fst snd].
    assert (k ∉ keys result) as Hkr by (apply Hfresh; cbn; left).
    destruct (predicate item).
    + rewrite IH; [|done|].
      * rewrite (obj_set_fresh _ _ _ Hkr). cbn [map fst snd].
        by rewrite <- app_assoc.
      * intros key Hkey. rewrite (obj_set_fresh _ _ _ Hkr).
        unfold keys. rewrite map_app. cbn [map fst].
        rewrite not_elem_of_app, not_elem_of_cons. split; [|split].
        -- apply Hfresh. cbn. by right.
        -- intros ->. done.
        -- apply not_elem_of_nil.
    + apply IH; [done|]. intros key Hkey. apply Hfresh. cbn. by right.
Qed.

(** X18. On an object (its keys distinct), [mapFilterValues] keeps exactly the
    entries whose item passes the predicate, in their order, each mapped with
    its own key; with a predicate that passes everything it is
    [mapValues]. *)
Theorem mapFilterValues_filters_then_maps {T P : Type}
    (collection : list (string * T)) (iteratee : T → string → P)
    (predicate : T → bool) :
  NoDup (keys collection) →
  mapFilterValues collection iteratee predicate
  = mapValues (List.filter (λ kv : string * T, predicate kv.2) collection) iteratee
  ∧ mapFilterValues collection iteratee (λ _, true) = mapValues collection iteratee.
Proof.
  intros Hnd. unfold mapFilterValues, mapValues. split.
  - rewrite mapFilterValues_from; [done | done |].
    intros key _. apply not_elem_of_nil.
  - etrans;
      [apply (mapFilterValues_from collection iteratee (λ _, true) [] Hnd);
       intros key _; apply not_elem_of_nil|].
    cbn [app]. f_equal. clear Hnd.
    induction collection as [|kv rest IH]; [done|]. cbn. by rewrite IH.
Qed.

Lemma mapFilterValues_filters_then_maps_witness :
  let collection := [("green", 1%Z); ("yellow", 0%Z); ("red", 2%Z)] in
  NoDup (keys collection)
  ∧ mapFilterValues collection (λ item key, (key, item)) (λ item, (0 <? item)%Z)
    = [("green", ("green", 1%Z)); ("red", ("red", 2%Z))].
Proof.
  intros collection.
  assert (NoDup (keys collection)) as Hnd by distinct_keys.
  split; [exact Hnd|].
  exact (proj1 (mapFilterValues_filters_then_maps collection
                  (λ item key, (key, item)) (λ item, (0 <? item)%Z) Hnd)).
Defined.

(** With a key written twice in the list the later entry overwrites the
    earlier one in place, so the hypothesis is needed. *)
Example mapFilterValues_repeated_key :
  mapFilterValues [("a", 1%Z); ("a", 2%Z)] (λ item _, item) (λ _, true)
  = [("a", 2%Z)].
Proof. reflexivity. Qed.

Lemma partition_from {T : Type} (items : list T) (predicate : T → bool)
    (acc : list T * list T) :
  foldl
    (λ (acc : list T * list T) item,
       if predicate item then (acc.1 ++ [item], acc.2)
       else (acc.1, acc.2 ++ [item]))
    acc items
  = (acc.1 ++ List.filter predicate items,
     acc.2 ++ List.filter (λ item, negb (predicate item)) items).
Proof.
  revert acc. induction items as [|item rest IH]; intros [yes no].
  - cbn. by rewrite !app_nil_r.
  - cbn [foldl List.filter]. destruct (predicate item); rewrite IH; cbn;
      by rewrite <- ?app_assoc.
Qed.

(** X19. [partition] loses and invents nothing: its halves are the two
    filters, so each keeps the order of the items, every item lands in
    exactly one of them, and the lengths add up. *)
Theorem partition_filters {T : Type} (items : list T) (predicate : T → bool) :
  partition items predicate
  = (List.filter predicate items,
     List.filter (λ item, negb (predicate item)) items)
  ∧ (∀ item, item ∈ (partition items predicate).1
             ↔ item ∈ items ∧ predicate item = true)
  ∧ (∀ item, item ∈ (partition items predicate).2
             ↔ item ∈ items ∧ predicate item = false)
  ∧ length (partition items predicate).1 + length (partition items predicate).2
    = length items.
Proof.
  assert (partition items predicate
          = (List.filter predicate items,
             List.filter (λ item, negb (predicate item)) items)) as Heq.
  { unfold partition. by rewrite partition_from. }
  rewrite Heq. cbn [fst snd]. split; [done|]. split; [|split].
  - intros item. rewrite !list_elem_of_In. apply filter_In.
  - intros item. rewrite !list_elem_of_In, filter_In, Bool.negb_true_iff. done.
  - clear Heq. induction items as [|item rest IH]; [done|].
    cbn. destruct (predicate item); cbn; lia.
Qed.

(** ** Deep property reads *)

Section PathFacts.
Variable primitiveProperty : JSValue → string → JSValue.

Lemma path_app (first rest : list string) (object : JSValue) :
  path primitiveProperty (first ++ rest) object
  = (reached ← path primitiveProperty first object;
     path primitiveProperty rest reached).
Proof.
  revert object. induction first as [|prop first IH]; intros object; [done|].
  cbn [app path]. destruct (getProperty primitiveProperty object prop); [|done].
  cbn. apply IH.
Qed.

(** X20. [nestedPath] is [path] along the same properties with the accessor
    put before each of them. *)
Theorem nestedPath_is_path (props : list string) (accessorProp : string)
    (object : JSValue) :
  nestedPath primitiveProperty props accessorProp object
  = path primitiveProperty (flat_map (λ prop, [accessorProp; prop]) props) object.
Proof.
  revert object. induction props as [|prop rest IH]; intros object; [done|].
  cbn [nestedPath flat_map app path].
  destruct (getProperty primitiveProperty object accessorProp) as [inner|]; [|done].
  cbn. destruct (getProperty primitiveProperty inner prop) as [result|]; [|done].
  cbn. apply IH.
Qed.

(** X21. [path] throws exactly when a property is still to be read on
    [null] or [undefined]: when some proper prefix of the path reaches
    one. A path that ends on [undefined] returns it. *)
Theorem path_throws_iff (props : list string) (object : JSValue) :
  (∃ message, path primitiveProperty props object = Throw message)
  ↔ ∃ before prop after reached,
      props = before ++ prop :: after
      ∧ path primitiveProperty before object = Ok reached
      ∧ nullish reached = true.
Proof.
  split.
  - revert object. induction props as [|prop rest IH]; intros object [message Hthrow].
    + done.
    + cbn [path] in Hthrow.
      destruct (getProperty primitiveProperty object prop) as [result|m] eqn:Hget.
      * cbn in Hthrow.
        destruct (IH result (ex_intro _ message Hthrow))
          as (before & prop' & after & reached & -> & Hreach & Hnull).
        exists (prop :: before), prop', after, reached. split; [done|].
        split; [|done]. cbn [path]. by rewrite Hget.
      * exists [], prop, rest, object. split; [done|]. split; [done|].
        by destruct object.
  - intros (before & prop & after & reached & -> & Hreach & Hnull).
    rewrite path_app, Hreach. cbn.
    destruct reached; try done; by eexists.
Qed.
End PathFacts.

(** ** The nodes of a machine *)

Section NodesFacts.
Context {V : Type}.

(** X22. [getNodes] lists exactly the nodes below a node: every one of
    them, and nothing else (the node itself only if it is below itself). *)
Theorem getNodes_below (node n : StateNode V) :
  n ∈ Graph.getNodes node ↔ Graph.below n node.
Proof.
  split.
  - revert n. induction node as [node IH] using Graph.StateNode_nested_ind.
    intros n. destruct node as [k kd ini chs o al en ex ac]. cbn [Graph.getNodes children].
    intros Hin. apply list_elem_of_In, in_flat_map in Hin as (c & Hc & Hn).
    apply list_elem_of_In in Hc. cbn [children] in IH.
    destruct Hn as [<- | Hn].
    + by apply Graph.below_child.
    + apply Graph.below_deeper with c; [done|].
      rewrite Forall_forall in IH. apply (IH c Hc). by apply list_elem_of_In.
  - intros Hbelow. induction Hbelow as [node c Hc | node c d Hc _ IH];
      destruct node as [k kd ini chs o al en ex ac]; cbn [Graph.getNodes children] in *;
      apply list_elem_of_In, in_flat_map; exists c;
      (split; [by apply list_elem_of_In|]).
    + by left.
    + right. by apply list_elem_of_In.
Qed.
End NodesFacts.

(** ** The state graph *)

Import Graph.

Lemma obj_get_set_ne {A : Type} (k key : string) (v : A) object :
  k ≠ key → obj_get k (obj_set key v object) = obj_get k object.
Proof.
  intros Hne. induction object as [|[k' w] rest IH]; simpl.
  - destruct (String.eqb_spec key k) as [-> | _]; done.
  - destruct (String.eqb_spec k' key) as [-> | Hk]; simpl.
    + destruct (String.eqb_spec key k) as [-> | _]; done.
    + destruct (String.eqb_spec k' k) as [-> | _]; [done | apply IH].
Qed.

Lemma obj_get_is_Some {A : Type} (key : string) (object : list (string * A)) :
  is_Some (obj_get key object) ↔ key ∈ keys object.
Proof.
  destruct (obj_get key object) as [v|] eqn:Hget.
  - split; [intros _ | by eexists].
    destruct (decide (key ∈ keys object)) as [|Hno]; [done|].
    apply obj_get_None in Hno. congruence.
  - split; [by intros [? [=]] | intros Hin]. by apply obj_get_None in Hget.
Qed.

Lemma present_set {A : Type} (object : list (string * A)) key v k :
  is_Some (obj_get k (obj_set key v object))
  ↔ k = key ∨ is_Some (obj_get k object).
Proof.
  destruct (decide (k = key)) as [-> | Hk].
  - rewrite obj_get_set_eq. split; [by left | by eexists].
  - rewrite obj_get_set_ne by done. split; [by right | by intros [|]].
Qed.

Lemma add_delete_fresh (x : string) (X : gset string) :
  x ∉ X → ({[x]} ∪ X) ∖ {[x]} = X.
Proof.
  intros Hx. apply set_eq. intros y.
  rewrite elem_of_difference, elem_of_union, !elem_of_singleton. split.
  - intros [[-> | Hy] Hne]; done.
  - intros Hy. split; [by right|]. by intros ->.
Qed.

Lemma extends_refl toPathId old : extends toPathId [] old old.
Proof. split; [done|]. by rewrite app_nil_r. Qed.

Lemma extends_trans toPathId a1 a2 p1 p2 p3 :
  extends toPathId a1 p1 p2 → extends toPathId a2 p2 p3 →
  extends toPathId (a1 ++ a2) p1 p3.
Proof.
  intros [H1 H1'] [H2 H2']. split.
  - intros k Hk. by rewrite H2, H1.
  - by rewrite H2', H1', app_assoc.
Qed.

Section SimplePathsFacts.
Variable stringify : StateValue → string.
Variable parse : string → StateValue.
Variable adjacency : AdjacencyMap.

Local Abbreviation walk := (Graph.walk stringify parse adjacency).
Local Abbreviation simplePath := (Graph.simplePath stringify parse adjacency).
Local Abbreviation closed := (Graph.closed stringify adjacency).
Local Abbreviation eachEvent := (Graph.eachEvent stringify parse).
Local Abbreviation util := (Graph.util stringify parse adjacency).
Local Abbreviation forEachTarget := (Graph.forEachTarget stringify parse adjacency).
Local Abbreviation simplePathsOver := (Graph.simplePathsOver stringify parse adjacency).
Local Abbreviation util_pre := (Graph.util_pre stringify parse adjacency).
Local Abbreviation util_post := (Graph.util_post stringify parse adjacency).

Lemma walk_snoc a ids segs b eventMap e v :
  walk a ids segs b →
  obj_get b adjacency = Some eventMap →
  obj_get e eventMap = Some v →
  truthy v = true →
  walk a (ids ++ [b]) (segs ++ [mkSegment (parse b) e]) (stringify v).
Proof.
  intros Hwalk Hb He Hv.
  induction Hwalk as [a | a em e' v' ids segs c Ha He' Hv' _ IH].
  - cbn. eapply walk_edge; [done | done | done | apply walk_here].
  - cbn. eapply walk_edge; [done | done | done | by apply IH].
Qed.

Lemma walk_first a ids segs c :
  walk a ids segs c → ∃ l, ids ++ [c] = a :: l.
Proof. intros [a' | a' em e v ids' segs' c' _ _ _ _]; cbn; by eexists. Qed.

Lemma walk_ids_keys a ids segs c :
  walk a ids segs c → ∀ x, x ∈ ids → x ∈ keys adjacency.
Proof.
  induction 1 as [a | a em e v ids segs c Ha _ _ _ IH]; intros x Hx.
  - by apply elem_of_nil in Hx.
  - apply elem_of_cons in Hx as [-> | Hx]; [|by apply IH].
    apply obj_get_is_Some. by eexists.
Qed.

Lemma walk_loop a ids segs :
  walk a ids segs a → NoDup (ids ++ [a]) → ids = [] ∧ segs = [].
Proof.
  intros Hwalk Hnd.
  inversion Hwalk as [a' | a' em e v ids' segs' c Ha He Hv Hrest]; subst; [done|].
  cbn in Hnd. apply NoDup_cons in Hnd as [Hno _]. exfalso. apply Hno.
  apply elem_of_app. right. by apply list_elem_of_singleton.
Qed.

Lemma NoDup_ids_bound ids :
  NoDup ids → (∀ x, x ∈ ids → x ∈ keys adjacency) →
  length ids ≤ length adjacency.
Proof.
  intros Hnd Hsub.
  rewrite <- (length_map fst adjacency). fold (keys adjacency).
  apply submseteq_length, NoDup_submseteq; done.
Qed.

Section Util.
Variable initialStateId toPathId : string.

Lemma eachEvent_spec (fuel : nat)
    (rec : string → Traversal → option (Result Traversal))
    (ids : list string) (fromPathId : string) (p : list Segment)
    (eventMap : list (string * StateValue)) :
  (∀ next t ids', util_pre initialStateId fuel ids' next t →
                  ∃ r, rec next t = Some r ∧ util_post toPathId ids' next t r) →
  walk initialStateId ids p fromPathId →
  obj_get fromPathId adjacency = Some eventMap →
  NoDup (ids ++ [fromPathId]) →
  length adjacency < S fuel + length ids →
  ∀ events t,
    (∀ e, e ∈ events → e ∈ keys eventMap) →
    visited t = list_to_set (ids ++ [fromPathId]) →
    path t = p →
    ∃ r, eachEvent rec fromPathId eventMap events t = Some r
         ∧ match r with
           | Ok t' =>
               visited t' = visited t
               ∧ path t' = path t
               ∧ ∃ added,
                   extends toPathId added (paths t) (paths t')
                   ∧ ∀ q, q ∈ added ↔
                          ∃ e v ids2 segs2,
                            e ∈ events
                            ∧ obj_get e eventMap = Some v
                            ∧ truthy v = true
                            ∧ q = p ++ mkSegment (parse fromPathId) e :: segs2
                            ∧ walk (stringify v) ids2 segs2 toPathId
                            ∧ NoDup ((ids ++ [fromPathId]) ++ ids2 ++ [toPathId])
           | Throw _ => ¬ (closed ∧ fromPathId ∈ keys adjacency)
           end.
Proof.
  intros Hrec Hwalk Hfrom Hnd Hfuel.
  induction events as [|e rest IH]; intros t Hkeys Hvis Hpath.
  - exists (Ok t). split; [done|]. split; [done|]. split; [done|].
    exists []. split; [apply extends_refl|]. intros q. split.
    + intros Hq. by apply elem_of_nil in Hq.
    + intros (e & v & ids2 & segs2 & He & _). by apply elem_of_nil in He.
  - cbn [Graph.eachEvent].
    assert (∀ e', e' ∈ rest → e' ∈ keys eventMap) as Hrest
        by (intros e' He'; apply Hkeys; by right).
    destruct (obj_get e eventMap) as [v|] eqn:He.
    2:{ apply obj_get_None in He. exfalso. apply He, Hkeys. by left. }
    assert (∀ r, (¬ ∃ ids2 segs2,
                     truthy v = true
                     ∧ walk (stringify v) ids2 segs2 toPathId
                     ∧ NoDup ((ids ++ [fromPathId]) ++ ids2 ++ [toPathId])) →
                 match r with
                 | Ok t' =>
                     visited t' = visited t ∧ path t' = path t
                     ∧ ∃ added, extends toPathId added (paths t) (paths t')
                        ∧ ∀ q, q ∈ added ↔
                            ∃ e' v' ids2 segs2,
                              e' ∈ rest ∧ obj_get e' eventMap = Some v'
                              ∧ truthy v' = true
                              ∧ q = p ++ mkSegment (parse fromPathId) e' :: segs2
                              ∧ walk (stringify v') ids2 segs2 toPathId
                              ∧ NoDup ((ids ++ [fromPathId]) ++ ids2 ++ [toPathId])
                 | Throw _ => ¬ (closed ∧ fromPathId ∈ keys adjacency)
                 end →
                 match r with
                 | Ok t' =>
                     visited t' = visited t ∧ path t' = path t
                     ∧ ∃ added, extends toPathId added (paths t) (paths t')
                        ∧ ∀ q, q ∈ added ↔
                            ∃ e' v' ids2 segs2,
                              e' ∈ e :: rest ∧ obj_get e' eventMap = Some v'
                              ∧ truthy v' = true
                              ∧ q = p ++ mkSegment (parse fromPathId) e' :: segs2
                              ∧ walk (stringify v') ids2 segs2 toPathId
                              ∧ NoDup ((ids ++ [fromPathId]) ++ ids2 ++ [toPathId])
                 | Throw _ => ¬ (closed ∧ fromPathId ∈ keys adjacency)
                 end) as Hskip.
    { intros [t'|m] Hnone; [|done]. intros (Hv' & Hp' & added & Hext & Hadded).
      split; [done|]. split; [done|]. exists added. split; [done|].
      intros q. rewrite Hadded. split.
      - intros (e' & v' & ids2 & segs2 & He' & Hrest'). exists e', v', ids2, segs2.
        split; [by right | done].
      - intros (e' & v' & ids2 & segs2 & He' & Hget & Htr & Hq & Hw & Hnd').
        apply elem_of_cons in He' as [-> | He'].
        + exfalso. apply Hnone. rewrite He in Hget. injection Hget as <-.
          by exists ids2, segs2.
        + by exists e', v', ids2, segs2. }
    destruct (truthy v) eqn:Htruthy; cbn [negb].
    2:{ destruct (IH t Hrest Hvis Hpath) as (r & Hr & Hpost).
        exists r. split; [done|]. apply Hskip; [|done].
        intros (? & ? & ? & _). done. }
    destruct (decide (stringify v ∈ visited t)) as [Hin | Hnotin].
    { rewrite bool_decide_eq_true_2 by done.
      destruct (IH t Hrest Hvis Hpath) as (r & Hr & Hpost).
      exists r. split; [done|]. apply Hskip; [|done].
      intros (ids2 & segs2 & _ & Hw & Hnd').
      destruct (walk_first _ _ _ _ Hw) as [l Hl]. rewrite Hl in Hnd'.
      apply NoDup_app in Hnd' as (_ & Hdisj & _).
      rewrite Hvis, elem_of_list_to_set in Hin.
      apply (Hdisj _ Hin). by left. }
    rewrite bool_decide_eq_false_2 by done.
    set (t1 := mkTraversal (visited t)
                 (path t ++ [mkSegment (parse fromPathId) e]) (paths t)).
    assert (util_pre initialStateId fuel (ids ++ [fromPathId]) (stringify v) t1)
      as Hpre.
    { split; [|split; [|split]].
      - cbn. rewrite Hpath. by eapply walk_snoc.
      - done.
      - apply NoDup_app. split; [done|]. split; [|apply NoDup_singleton].
        intros x Hx Hx'. apply list_elem_of_singleton in Hx' as ->.
        apply Hnotin. by rewrite Hvis, elem_of_list_to_set.
      - rewrite length_app. cbn. lia. }
    destruct (Hrec _ _ _ Hpre) as (r1 & Hr1 & Hpost1). rewrite Hr1.
    destruct r1 as [t2|m]; cbn [Graph.util_post] in Hpost1.
    2:{ exists (Throw m). split; [done|]. intros [Hclosed _]. apply Hpost1.
        split; [done|]. by eapply Hclosed. }
    destruct Hpost1 as (Hvis2 & Hpath2 & added1 & Hext1 & Hadded1).
    cbn [t1 visited path paths] in Hvis2, Hpath2, Hext1, Hadded1.
    rewrite removelast_last in Hpath2.
    destruct (IH t2 Hrest) as (r & Hr & Hpost); [congruence | congruence |].
    exists r. split; [done|]. destruct r as [t3|m']; [|done].
    destruct Hpost as (Hvis3 & Hpath3 & added2 & Hext2 & Hadded2).
    split; [congruence|]. split; [congruence|].
    exists (added1 ++ added2). split; [by eapply extends_trans|].
    intros q. rewrite elem_of_app, Hadded1, Hadded2. split.
    + intros [(ids2 & segs2 & -> & Hw & Hnd')
             | (e' & v' & ids2 & segs2 & He' & Hrest')].
      * exists e, v, ids2, segs2. split; [by left|]. split; [done|]. split; [done|].
        split; [by rewrite Hpath, <- app_assoc|]. done.
      * exists e', v', ids2, segs2. split; [by right | done].
    + intros (e' & v' & ids2 & segs2 & He' & Hget & Htr & -> & Hw & Hnd').
      apply elem_of_cons in He' as [-> | He'].
      * left. rewrite He in Hget. injection Hget as <-. exists ids2, segs2.
        split; [by rewrite Hpath, <- app_assoc|]. done.
      * right. by exists e', v', ids2, segs2.
Qed.

Lemma util_spec (fuel : nat) :
  ∀ fromPathId t ids,
    util_pre initialStateId fuel ids fromPathId t →
    ∃ r, util fuel fromPathId toPathId t = Some r
         ∧ util_post toPathId ids fromPathId t r.
Proof.
  induction fuel as [|fuel IH]; intros fromPathId t ids (Hwalk & Hvis & Hnd & Hfuel).
  - exfalso. apply NoDup_app in Hnd as (Hnd & _ & _).
    pose proof (NoDup_ids_bound ids Hnd (walk_ids_keys _ _ _ _ Hwalk)). lia.
  - assert (fromPathId ∉ visited t) as Hfresh.
    { rewrite Hvis, elem_of_list_to_set. intros Hin.
      apply NoDup_app in Hnd as (_ & Hdisj & _). apply (Hdisj _ Hin). by left. }
    cbn [Graph.util]. destruct (String.eqb_spec fromPathId toPathId) as [-> | Hne].
    + eexists. split; [reflexivity|].
      cbn [Graph.util_post pushPath visited path paths].
      split; [by apply add_delete_fresh|]. split; [done|].
      exists [path t]. split.
      { split; cbn; [intros k Hk; by apply obj_get_set_ne
                    | by rewrite obj_get_set_eq]. }
      intros q. rewrite list_elem_of_singleton. split.
      * intros ->. exists [], []. rewrite app_nil_r.
        split; [done|]. split; [apply walk_here | done].
      * intros (ids2 & segs2 & -> & Hw & Hnd').
        apply NoDup_app in Hnd' as (_ & _ & Hnd').
        destruct (walk_loop _ _ _ Hw Hnd') as [_ ->]. by rewrite app_nil_r.
    + destruct (obj_get fromPathId adjacency) as [eventMap|] eqn:Hfrom.
      2:{ eexists. split; [reflexivity|]. intros [_ Hin].
          by apply obj_get_None in Hfrom. }
      destruct (eachEvent_spec fuel (λ next t', util fuel next toPathId t')
                  ids fromPathId (path t) eventMap IH Hwalk Hfrom Hnd
                  ltac:(lia) (keys eventMap)
                  (mkTraversal ({[fromPathId]} ∪ visited t) (path t) (paths t))
                  ltac:(done))
        as (r & Hr & Hpost).
      { cbn. rewrite Hvis, list_to_set_app_L. cbn.
        rewrite (right_id_L ∅ (∪)). apply (comm_L (∪)). }
      { done. }
      rewrite Hr. destruct r as [t'|m]; [|by exists (Throw m)].
      eexists. split; [reflexivity|].
      destruct Hpost as (Hvis' & Hpath' & added & Hext & Hadded).
      cbn [Graph.util_post visited path paths] in *.
      split; [rewrite Hvis'; by apply add_delete_fresh|].
      split; [by rewrite Hpath'|].
      exists added. split; [done|]. intros q. rewrite Hadded. split.
      * intros (e & v & ids2 & segs2 & _ & Hget & Htr & -> & Hw & Hnd').
        exists (fromPathId :: ids2), (mkSegment (parse fromPathId) e :: segs2).
        split; [done|]. split; [by eapply walk_edge|].
        by rewrite <- app_assoc in Hnd'.
      * intros (ids2 & segs2 & -> & Hw & Hnd').
        inversion Hw as [a | a em e v ids2' segs2' c Ha He Hv Hrest]; subst;
          [done|].
        rewrite Hfrom in Ha. injection Ha as <-.
        exists e, v, ids2', segs2'. split.
        { apply obj_get_is_Some. by eexists. }
        split; [done|]. split; [done|]. split; [done|]. split; [done|].
        by rewrite <- app_assoc.
Qed.
End Util.

Lemma forEachTarget_spec (initialStateId : string) (targets : list string) :
  ∀ t processed,
    visited t = ∅ → path t = [] →
    (∀ target q, q ∈ default [] (obj_get target (paths t)) ↔
                 target ∈ processed ∧ simplePath initialStateId q target) →
    ∃ r, forEachTarget (S (length adjacency)) initialStateId targets t = Some r
         ∧ match r with
           | Ok t' =>
               ∀ target q, q ∈ default [] (obj_get target (paths t')) ↔
                 target ∈ processed ++ targets
                 ∧ simplePath initialStateId q target
           | Throw _ => ¬ (closed ∧ initialStateId ∈ keys adjacency)
           end.
Proof.
  induction targets as [|target rest IH]; intros t processed Hvis Hpath Hpaths.
  - exists (Ok t). split; [done|]. by rewrite app_nil_r.
  - cbn [Graph.forEachTarget].
    destruct (util_spec initialStateId target (S (length adjacency))
                initialStateId t []) as (r1 & Hr1 & Hpost1).
    { split; [|split; [|split]].
      - rewrite Hpath. apply walk_here.
      - by rewrite Hvis.
      - apply NoDup_singleton.
      - cbn. lia. }
    rewrite Hr1. destruct r1 as [t1|m]; [|by exists (Throw m)].
    destruct Hpost1 as (Hvis1 & Hpath1 & added & [Hother Hhere] & Hadded).
    rewrite Hpath in Hpath1, Hadded. cbn in Hpath1.
    destruct (IH t1 (processed ++ [target])) as (r & Hr & Hpost);
      [congruence | done | |].
    + intros target' q. destruct (decide (target' = target)) as [-> | Hne].
      * rewrite Hhere, !elem_of_app, Hpaths, Hadded, list_elem_of_singleton.
        unfold Graph.simplePath. split.
        -- intros [[Hin Hsimple] | (ids2 & segs2 & -> & Hw & Hnd)].
           ++ split; [by left | done].
           ++ split; [by right|]. by exists ids2.
        -- intros [[Hin | _] (ids2 & Hw & Hnd)].
           ++ left. split; [done|]. by exists ids2.
           ++ right. by exists ids2, q.
      * rewrite (Hother _ Hne), Hpaths, elem_of_app, list_elem_of_singleton.
        split; [intros [Hin Hs]; split; [by left | done]|].
        intros [[Hin | ->] Hs]; done.
    + exists r. split; [done|]. destruct r as [t2|m]; [|done].
      intros target' q. rewrite Hpost, <- app_assoc. done.
Qed.

Lemma simplePathsOver_spec (initialStateId : string) :
  ∃ r, forEachTarget (S (length adjacency)) initialStateId (keys adjacency)
         (mkTraversal ∅ [] []) = Some r
       ∧ match r with
         | Ok t' =>
             ∀ target q, q ∈ default [] (obj_get target (paths t')) ↔
               target ∈ keys adjacency ∧ simplePath initialStateId q target
         | Throw _ => ¬ (closed ∧ initialStateId ∈ keys adjacency)
         end.
Proof.
  apply (forEachTarget_spec initialStateId (keys adjacency)
           (mkTraversal ∅ [] []) []); [done | done |].
  intros target q. cbn. split; [intros Hq; by apply elem_of_nil in Hq|].
  intros [Hin _]. by apply elem_of_nil in Hin.
Qed.

(** X23. The search for simple paths ends on every adjacency map, within
    the fuel it is given, and it throws only over a map that is not closed
    or does not hold the initial state. *)
Theorem simplePathsOver_returns (initialStateId : string) :
  ∃ r, simplePathsOver initialStateId = Some r
       ∧ ∀ message, r = Throw message →
                    ¬ (closed ∧ initialStateId ∈ keys adjacency).
Proof.
  unfold Graph.simplePathsOver.
  destruct (simplePathsOver_spec initialStateId) as (r & -> & Hpost).
  destruct r as [t|m]; (eexists; split; [done|]); [done|].
  by intros message _.
Qed.

(** X24. What the search lists under a state of the map are exactly the
    simple paths from the initial state to it: every listed path is a walk
    along the map that is at no state twice, and every such walk is
    listed. *)
Theorem simplePathsOver_exact (initialStateId : string) (result : PathsMap) :
  simplePathsOver initialStateId = Some (Ok result) →
  ∀ target q,
    q ∈ default [] (obj_get target result)
    ↔ target ∈ keys adjacency ∧ simplePath initialStateId q target.
Proof.
  unfold Graph.simplePathsOver.
  destruct (simplePathsOver_spec initialStateId) as (r & -> & Hpost).
  destruct r as [t|m]; [|done]. intros [= <-]. exact Hpost.
Qed.
End SimplePathsFacts.

Lemma grows_refl a : grows a a.
Proof. by split. Qed.

Lemma grows_trans a b c : grows a b → grows b c → grows a c.
Proof. intros [H1 H2] [H3 H4]. split; [intros k Hk | intros k e Hk]; eauto. Qed.

Lemma edge_set (adjacency : AdjacencyMap) key eventMap event nextValue k e w :
  obj_get key adjacency = Some eventMap →
  edge (obj_set key (obj_set event nextValue eventMap) adjacency) k e w ↔
  (k = key ∧ e = event ∧ w = nextValue)
  ∨ (¬ (k = key ∧ e = event) ∧ edge adjacency k e w).
Proof.
  intros Hkey. unfold edge. destruct (decide (k = key)) as [-> | Hk].
  - rewrite obj_get_set_eq. destruct (decide (e = event)) as [-> | He].
    + split.
      * intros (em & [= <-] & Hget). rewrite obj_get_set_eq in Hget.
        left. by injection Hget as <-.
      * intros [(_ & _ & ->) | [Hno _]]; [|by destruct Hno].
        eexists. split; [done|]. by rewrite obj_get_set_eq.
    + split.
      * intros (em & [= <-] & Hget). rewrite obj_get_set_ne in Hget by done.
        right. split; [by intros [_ ?]|]. by exists eventMap.
      * intros [(_ & -> & _) | [_ (em & Hem & Hget)]]; [done|].
        eexists. split; [done|]. rewrite obj_get_set_ne by done. congruence.
  - rewrite obj_get_set_ne by done. split.
    + intros Hedge. right. split; [by intros [? _] | done].
    + intros [(-> & _) | [_ Hedge]]; done.
Qed.

Lemma elem_of_keyset adjacency k :
  k ∈ keyset adjacency ↔ is_Some (obj_get k adjacency).
Proof. unfold keyset. by rewrite elem_of_list_to_set, obj_get_is_Some. Qed.

Section AdjacencyFacts.
Variable stringify : StateValue → string.
Variable parse : string → StateValue.
Variable events : list string.
Variable transitionValue : StateValue → string → Result StateValue.
Variable initialValue : StateValue.
Variable machineStates : bool.

Local Abbreviation eachAdjacency := (Graph.eachAdjacency transitionValue).
Local Abbreviation findAdjacencies :=
  (Graph.findAdjacencies stringify events transitionValue).
Local Abbreviation getAdjacencyMap :=
  (Graph.getAdjacencyMap stringify events transitionValue initialValue).
Local Abbreviation reachable :=
  (Graph.reachable events transitionValue initialValue).
Local Abbreviation found :=
  (Graph.found stringify events transitionValue initialValue).
Local Abbreviation find_post :=
  (Graph.find_post stringify events transitionValue initialValue).
Local Abbreviation getSimplePaths :=
  (Graph.getSimplePaths stringify parse events transitionValue initialValue
     machineStates).

Lemma found_trans a b c : found a b → grows b c → found b c → found a c.
Proof.
  intros [Hab1 Hab2] [Hbc Hbc'] [Hc1 Hc2]. split.
  - intros k e w Hedge. destruct (Hc1 k e w Hedge) as [Hb | Hnew]; [|by right].
    destruct (Hab1 k e w Hb) as [Ha | (He & Hsv & Htarget)]; [by left|].
    right. split; [done|]. split; [done|]. by apply Hbc.
  - intros k Hk. destruct (Hc2 k Hk) as [Hb | Hnew]; [|by right].
    destruct (Hab2 k Hb) as [Ha | [Hfull Hsv]]; [by left|].
    right. split; [|done]. intros e He. apply Hbc'. by apply Hfull.
Qed.

Lemma eachAdjacency_sound
    (find : StateValue → AdjacencyMap → option (Result AdjacencyMap))
    (stateValue : StateValue) :
  (∀ v adjacency r, reachable v → find v adjacency = Some r →
                    find_post v adjacency r) →
  reachable stateValue →
  ∀ rest adjacency r,
    (∀ e, e ∈ rest → e ∈ events) →
    is_Some (obj_get (stringify stateValue) adjacency) →
    eachAdjacency find stateValue (stringify stateValue) rest adjacency = Some r →
    match r with
    | Ok new =>
        grows adjacency new ∧ found adjacency new
        ∧ ∀ e, e ∈ rest → ∃ w, edge new (stringify stateValue) e w
    | Throw message =>
        ∃ sv e, reachable sv ∧ e ∈ events ∧ transitionValue sv e = Throw message
    end.
Proof.
  intros Hfind Hreach. induction rest as [|event rest IH];
    intros adjacency r Hevents Hpresent Hrun.
  - injection Hrun as <-. split; [apply grows_refl|]. split.
    + split; [by left.. ].
    + intros e He. by apply elem_of_nil in He.
  - cbn [Graph.eachAdjacency] in Hrun.
    assert (event ∈ events) as Hevent by (apply Hevents; by left).
    destruct (transitionValue stateValue event) as [nextValue|message] eqn:Hnext.
    2:{ injection Hrun as <-. by exists stateValue, event. }
    destruct Hpresent as [eventMap HeventMap]. rewrite HeventMap in Hrun.
    set (adjacency1 := obj_set (stringify stateValue)
                         (obj_set event nextValue eventMap) adjacency) in *.
    assert (reachable nextValue) as Hreach' by (by eapply reachable_next).
    destruct (find nextValue adjacency1) as [[adjacency2|message]|] eqn:Hcall;
      [|injection Hrun as <-; apply (Hfind _ _ _ Hreach' Hcall) | done].
    destruct (Hfind _ _ _ Hreach' Hcall) as (Hgrows2 & Hfound2 & Htarget).
    assert (grows adjacency adjacency1) as Hgrows1.
    { split.
      - intros k Hk. apply present_set. by right.
      - intros k e [w Hw].
        destruct (decide (k = stringify stateValue ∧ e = event)) as [[-> ->] | Hno].
        + exists nextValue. apply edge_set; [done|]. by left.
        + exists w. apply edge_set; [done|]. by right. }
    assert (is_Some (obj_get (stringify stateValue) adjacency2)) as Hpresent2.
    { apply Hgrows2. apply present_set. by left. }
    specialize (IH adjacency2 r (λ e He, Hevents e (list_elem_of_further _ _ _ He))
                  Hpresent2 Hrun).
    destruct r as [new|message]; [|done].
    destruct IH as (Hgrows3 & Hfound3 & Hslots).
    assert (found adjacency adjacency2) as Hfound12.
    { destruct Hfound2 as [Hedges Hkeys]. split.
      - intros k e w Hedge. destruct (Hedges k e w Hedge) as [H1 | Hnew];
          [|by right].
        apply edge_set in H1 as [(-> & -> & ->) | [_ Hold]]; [|by left | done].
        right. split; [done|]. split; [by exists stateValue | done].
      - intros k Hk. destruct (Hkeys k Hk) as [H1 | Hnew]; [|by right].
        left. apply present_set in H1 as [-> | H1]; [by eexists | done]. }
    split; [|split].
    + eapply grows_trans; [|exact Hgrows3]. by eapply grows_trans.
    + by eapply found_trans.
    + intros e He. apply elem_of_cons in He as [-> | He]; [|by apply Hslots].
      apply Hgrows3, Hgrows2. exists nextValue. apply edge_set; [done|]. by left.
Qed.

Lemma findAdjacencies_sound (fuel : nat) :
  ∀ v adjacency r,
    reachable v → findAdjacencies fuel v adjacency = Some r →
    find_post v adjacency r.
Proof.
  induction fuel as [|fuel IH]; intros v adjacency r Hreach Hrun; [done|].
  cbn [Graph.findAdjacencies] in Hrun. unfold obj_has in Hrun.
  destruct (obj_get (stringify v) adjacency) as [eventMap|] eqn:Hkey.
  - injection Hrun as <-. split; [apply grows_refl|]. split; [|by eexists].
    split; [by left..].
  - pose proof (eachAdjacency_sound (findAdjacencies fuel) v IH Hreach events
                  (obj_set (stringify v) [] adjacency) r (λ e He, He)) as Hloop.
    rewrite obj_get_set_eq in Hloop.
    specialize (Hloop (mk_is_Some _ _ eq_refl) Hrun).
    destruct r as [new|message]; [|done].
    destruct Hloop as (Hgrows & [Hedges Hkeys] & Hslots).
    assert (grows adjacency (obj_set (stringify v) [] adjacency)) as Hgrows0.
    { split.
      - intros k Hk. apply present_set. by right.
      - intros k e (w & em & Hem & Hget). exists w, em. split; [|done].
        rewrite obj_get_set_ne; [done|]. intros ->. congruence. }
    split; [by eapply grows_trans|]. split; [split|].
    + intros k e w Hedge. destruct (Hedges k e w Hedge) as [H0 | Hnew];
        [|by right].
      left. destruct H0 as (em & Hem & Hget).
      destruct (decide (k = stringify v)) as [-> | Hk].
      * rewrite obj_get_set_eq in Hem. by injection Hem as <-.
      * rewrite obj_get_set_ne in Hem by done. by exists em.
    + intros k Hk. destruct (Hkeys k Hk) as [H0 | Hnew]; [|by right].
      apply present_set in H0 as [-> | H0]; [|by left].
      right. split; [done|]. by exists v.
    + apply Hgrows. apply present_set. by left.
Qed.

Lemma getAdjacencyMap_spec (fuel : nat) (r : Result AdjacencyMap) :
  getAdjacencyMap fuel = Some r →
  match r with
  | Ok adjacency =>
      stringify initialValue ∈ keys adjacency
      ∧ (∀ k, k ∈ keys adjacency →
           (∃ sv, reachable sv ∧ stringify sv = k)
           ∧ ∀ e, e ∈ events → ∃ w, edge adjacency k e w)
      ∧ (∀ k e w, edge adjacency k e w →
           e ∈ events
           ∧ (∃ sv, reachable sv ∧ stringify sv = k ∧ transitionValue sv e = Ok w)
           ∧ stringify w ∈ keys adjacency)
  | Throw message =>
      ∃ sv e, reachable sv ∧ e ∈ events ∧ transitionValue sv e = Throw message
  end.
Proof.
  intros Hrun.
  pose proof (findAdjacencies_sound fuel _ _ _ (reachable_initial _ _ _) Hrun)
    as Hpost.
  destruct r as [adjacency|message]; [|done].
  destruct Hpost as (_ & [Hedges Hkeys] & Hinitial).
  split; [by apply obj_get_is_Some|]. split.
  - intros k Hk. apply obj_get_is_Some in Hk.
    destruct (Hkeys k Hk) as [[? [=]] | [Hfull Hsv]]. done.
  - intros k e w Hedge.
    destruct (Hedges k e w Hedge) as [(? & [=] & _) | (He & Hsv & Htarget)].
    split; [done|]. split; [done|]. by apply obj_get_is_Some.
Qed.

Section Finite.
Variable universe : gset string.
Hypothesis universe_reachable : ∀ sv, reachable sv → stringify sv ∈ universe.

Lemma unexplored_mono a b :
  (∀ k, is_Some (obj_get k a) → is_Some (obj_get k b)) →
  size (universe ∖ keyset b) ≤ size (universe ∖ keyset a).
Proof.
  intros Hgrows. apply subseteq_size. intros k.
  rewrite !elem_of_difference, !elem_of_keyset. intros [Hk Hno].
  split; [done|]. intros Hin. by apply Hno, Hgrows.
Qed.

Lemma unexplored_less a b k :
  k ∈ universe → ¬ is_Some (obj_get k a) → is_Some (obj_get k b) →
  (∀ k', is_Some (obj_get k' a) → is_Some (obj_get k' b)) →
  size (universe ∖ keyset b) < size (universe ∖ keyset a).
Proof.
  intros Hk Hfresh Hin Hgrows. apply subset_size. split.
  - intros k'. rewrite !elem_of_difference, !elem_of_keyset. intros [Hk' Hno].
    split; [done|]. intros Hin'. by apply Hno, Hgrows.
  - intros Hsub. specialize (Hsub k).
    rewrite !elem_of_difference, !elem_of_keyset in Hsub.
    by destruct Hsub.
Qed.

Lemma eachAdjacency_returns (fuel : nat)
    (find : StateValue → AdjacencyMap → option (Result AdjacencyMap))
    (stateValue : StateValue) :
  (∀ v adjacency, reachable v → size (universe ∖ keyset adjacency) < fuel →
                  ∃ r, find v adjacency = Some r) →
  (∀ v adjacency r, reachable v → find v adjacency = Some r →
                    find_post v adjacency r) →
  reachable stateValue →
  ∀ rest adjacency,
    (∀ e, e ∈ rest → e ∈ events) →
    is_Some (obj_get (stringify stateValue) adjacency) →
    size (universe ∖ keyset adjacency) < fuel →
    ∃ r, eachAdjacency find stateValue (stringify stateValue) rest adjacency
         = Some r.
Proof.
  intros Hreturns Hsound Hreach. induction rest as [|event rest IH];
    intros adjacency Hevents Hpresent Hfuel; [by eexists|].
  cbn [Graph.eachAdjacency].
  destruct (transitionValue stateValue event) as [nextValue|message] eqn:Hnext;
    [|by eexists].
  destruct Hpresent as [eventMap HeventMap]. rewrite HeventMap.
  set (adjacency1 := obj_set (stringify stateValue)
                       (obj_set event nextValue eventMap) adjacency).
  assert (∀ k, is_Some (obj_get k adjacency) → is_Some (obj_get k adjacency1))
    as Hgrows1 by (intros k Hk; apply present_set; by right).
  assert (reachable nextValue) as Hreach'.
  { eapply reachable_next; [done | | done]. apply Hevents. by left. }
  destruct (Hreturns nextValue adjacency1 Hreach') as [r1 Hr1].
  { pose proof (unexplored_mono _ _ Hgrows1). lia. }
  rewrite Hr1. destruct r1 as [adjacency2|message]; [|by eexists].
  destruct (Hsound _ _ _ Hreach' Hr1) as ([Hgrows2 _] & _ & _).
  apply IH.
  - intros e He. apply Hevents. by right.
  - apply Hgrows2, present_set. by left.
  - pose proof (unexplored_mono adjacency adjacency2
                  (λ k Hk, Hgrows2 k (Hgrows1 k Hk))). lia.
Qed.

Lemma findAdjacencies_returns (fuel : nat) :
  ∀ v adjacency,
    reachable v → size (universe ∖ keyset adjacency) < fuel →
    ∃ r, findAdjacencies fuel v adjacency = Some r.
Proof.
  induction fuel as [|fuel IH]; intros v adjacency Hreach Hfuel; [lia|].
  cbn [Graph.findAdjacencies]. unfold obj_has.
  destruct (obj_get (stringify v) adjacency) as [eventMap|] eqn:Hkey;
    [by eexists|].
  apply (eachAdjacency_returns fuel (findAdjacencies fuel) v IH
           (findAdjacencies_sound fuel) Hreach); [done | |].
  - rewrite obj_get_set_eq. by eexists.
  - assert (size (universe ∖ keyset (obj_set (stringify v) [] adjacency))
            < size (universe ∖ keyset adjacency)); [|lia].
    apply (unexplored_less _ _ (stringify v)).
    + by apply universe_reachable.
    + rewrite Hkey. by intros [? [=]].
    + rewrite obj_get_set_eq. by eexists.
    + intros k Hk. apply present_set. by right.
Qed.

Lemma getAdjacencyMap_total (fuel : nat) :
  size universe < fuel → ∃ r, getAdjacencyMap fuel = Some r.
Proof.
  intros Hfuel.
  apply (findAdjacencies_returns fuel _ _ (reachable_initial _ _ _)).
  assert (size (universe ∖ keyset []) ≤ size universe); [|lia].
  apply subseteq_size. intros k. rewrite elem_of_difference. by intros [Hk _].
Qed.
End Finite.

(** X25. What [getAdjacencyMap] returns holds the initial state; its ids
    are ids of reachable states, each with an entry for every event; and its
    entries are transitions of a reachable state with that id, into the map.
    What it throws, a transition from a reachable state has thrown. *)
Theorem getAdjacencyMap_sound (fuel : nat) (r : Result AdjacencyMap) :
  getAdjacencyMap fuel = Some r →
  match r with
  | Ok adjacency =>
      stringify initialValue ∈ keys adjacency
      ∧ (∀ k, k ∈ keys adjacency →
           (∃ sv, reachable sv ∧ stringify sv = k)
           ∧ ∀ e, e ∈ events → ∃ w, edge adjacency k e w)
      ∧ (∀ k e w, edge adjacency k e w →
           e ∈ events
           ∧ (∃ sv, reachable sv ∧ stringify sv = k ∧ transitionValue sv e = Ok w)
           ∧ stringify w ∈ keys adjacency)
  | Throw message =>
      ∃ sv e, reachable sv ∧ e ∈ events ∧ transitionValue sv e = Throw message
  end.
Proof. apply getAdjacencyMap_spec. Qed.

(** X26. When the reachable states have finitely many ids, the exploration
    ends: fuel above their number is enough. *)
Theorem getAdjacencyMap_returns (universe : gset string) (fuel : nat) :
  (∀ sv, reachable sv → stringify sv ∈ universe) →
  size universe < fuel →
  ∃ r, getAdjacencyMap fuel = Some r.
Proof. intros Huniverse. by apply getAdjacencyMap_total. Qed.

Lemma explored_closed (fuel : nat) (adjacency : AdjacencyMap) :
  getAdjacencyMap fuel = Some (Ok adjacency) →
  closed stringify adjacency ∧ stringify initialValue ∈ keys adjacency.
Proof.
  intros Hrun. destruct (getAdjacencyMap_spec fuel _ Hrun) as (Hinit & _ & Hedges).
  split; [|done]. intros a eventMap e v Ha He _.
  apply (Hedges a e v). by exists eventMap.
Qed.

(** X27. [getSimplePaths] throws only what a transition from a reachable
    state throws: the map it explores is closed, so the search over it does
    not fail. *)
Theorem getSimplePaths_throws_only (fuel : nat) (message : string) :
  getSimplePaths fuel = Some (Throw message) →
  ∃ sv e, reachable sv ∧ e ∈ events ∧ transitionValue sv e = Throw message.
Proof.
  unfold Graph.getSimplePaths. destruct machineStates; cbn [negb]; [|done].
  destruct (getAdjacencyMap fuel) as [[adjacency|m]|] eqn:Hadj; [| |done].
  - intros Hrun. exfalso. unfold simplePathsOver in Hrun.
    destruct (simplePathsOver_spec stringify parse adjacency
                (stringify initialValue)) as (r & Hr & Hpost).
    rewrite Hr in Hrun. destruct r as [t|m]; [done|].
    by apply Hpost, (explored_closed fuel).
  - intros [= ->]. apply (getAdjacencyMap_spec fuel _ Hadj).
Qed.

(** X28. On a machine whose reachable states have finitely many ids and
    whose transitions from them do not throw, [getSimplePaths] returns, and
    what it returns lists the empty path under the initial state. *)
Theorem getSimplePaths_returns (universe : gset string) (fuel : nat) :
  machineStates = true →
  (∀ sv, reachable sv → stringify sv ∈ universe) →
  size universe < fuel →
  (∀ sv e, reachable sv → e ∈ events → ∃ w, transitionValue sv e = Ok w) →
  ∃ result,
    getSimplePaths fuel = Some (Ok result)
    ∧ [] ∈ default [] (obj_get (stringify initialValue) result).
Proof.
  intros -> Huniverse Hfuel Hnothrow. unfold Graph.getSimplePaths. cbn [negb].
  destruct (getAdjacencyMap_total universe Huniverse fuel Hfuel) as [r Hadj].
  rewrite Hadj. destruct r as [adjacency|m].
  2:{ destruct (getAdjacencyMap_spec fuel _ Hadj) as (sv & e & Hsv & He & Hthrow).
      destruct (Hnothrow sv e Hsv He) as [w Hw]. congruence. }
  destruct (explored_closed fuel adjacency Hadj) as [Hclosed Hinit].
  unfold simplePathsOver.
  destruct (simplePathsOver_spec stringify parse adjacency
              (stringify initialValue)) as (r & Hr & Hpost).
  rewrite Hr. destruct r as [t|m]; [|by destruct Hpost].
  eexists. split; [done|]. apply Hpost. split; [done|].
  exists []. split; [apply walk_here | apply NoDup_singleton].
Qed.
End AdjacencyFacts.

(** The light machine is in one of its three states. *)
Lemma light_reachable (sv : StateValue) :
  reachable lightEvents lightNext (SVString "green") sv →
  sv = SVString "green" ∨ sv = SVString "yellow" ∨ sv = SVString "red".
Proof.
  induction 1 as [|sv e w _ IH _ Hnext]; [by left|].
  destruct IH as [-> | [-> | ->]]; cbn in Hnext;
    match type of Hnext with
    | context [String.eqb e ?x] => destruct (String.eqb e x)
    end; injection Hnext as <-; tauto.
Qed.

Lemma light_reachable_ids (sv : StateValue) :
  reachable lightEvents lightNext (SVString "green") sv →
  lightId sv ∈ (list_to_set ["green"; "yellow"; "red"] : gset string).
Proof.
  intros Hsv. rewrite elem_of_list_to_set.
  destruct (light_reachable sv Hsv) as [-> | [-> | ->]]; cbn.
  - by left.
  - right. by left.
  - right. right. by left.
Qed.

Lemma simplePathsOver_exact_witness :
  let adjacency : AdjacencyMap :=
    [("green", [("TIMER", SVString "yellow"); ("KEEP_GOING", SVString "green")]);
     ("yellow", [("TIMER", SVString "red")]);
     ("red", [("TIMER", SVString "green")])] in
  let result : PathsMap :=
    [("green", [[]]);
     ("yellow", [[mkSegment (SVString "green") "TIMER"]]);
     ("red", [[mkSegment (SVString "green") "TIMER";
               mkSegment (SVString "yellow") "TIMER"]])] in
  simplePathsOver lightId SVString adjacency "green" = Some (Ok result)
  ∧ ∀ target q,
      q ∈ default [] (obj_get target result)
      ↔ target ∈ keys adjacency
        ∧ simplePath lightId SVString adjacency "green" q target.
Proof.
  intros adjacency result.
  assert (simplePathsOver lightId SVString adjacency "green" = Some (Ok result))
    as Hrun by (vm_compute; reflexivity).
  split; [exact Hrun|].
  exact (simplePathsOver_exact lightId SVString adjacency "green" result Hrun).
Defined.

Lemma getAdjacencyMap_sound_witness :
  let adjacency : AdjacencyMap :=
    [("green", [("TIMER", SVString "yellow"); ("KEEP_GOING", SVString "green");
                (after (inl 10%Z) (Some "light.red"), SVString "green")]);
     ("yellow", [("TIMER", SVString "red"); ("KEEP_GOING", SVString "yellow");
                 (after (inl 10%Z) (Some "light.red"), SVString "yellow")]);
     ("red", [("TIMER", SVString "red"); ("KEEP_GOING", SVString "red");
              (after (inl 10%Z) (Some "light.red"), SVString "green")])] in
  getAdjacencyMap lightId lightEvents lightNext (SVString "green") 4
  = Some (Ok adjacency)
  ∧ ∀ k e w, edge adjacency k e w →
             e ∈ lightEvents ∧ lightId w ∈ keys adjacency.
Proof.
  intros adjacency.
  assert (getAdjacencyMap lightId lightEvents lightNext (SVString "green") 4
          = Some (Ok adjacency)) as Hrun by (vm_compute; reflexivity).
  split; [exact Hrun|].
  destruct (getAdjacencyMap_sound lightId lightEvents lightNext (SVString "green")
              4 (Ok adjacency) Hrun) as (_ & _ & Hedges).
  intros k e w Hedge. destruct (Hedges k e w Hedge) as (He & _ & Hw). by split.
Defined.

Lemma getAdjacencyMap_returns_witness :
  let universe : gset string := list_to_set ["green"; "yellow"; "red"] in
  (∀ sv, reachable lightEvents lightNext (SVString "green") sv →
         lightId sv ∈ universe)
  ∧ size universe < 4
  ∧ ∃ r, getAdjacencyMap lightId lightEvents lightNext (SVString "green") 4
         = Some r.
Proof.
  intros universe.
  assert (size universe < 4) as Hsize by (vm_compute; lia).
  split; [exact light_reachable_ids|]. split; [exact Hsize|].
  exact (getAdjacencyMap_returns lightId lightEvents lightNext (SVString "green")
           universe 4 light_reachable_ids Hsize).
Defined.

Lemma getSimplePaths_throws_only_witness :
  let message := "Child state 'blue' does not exist on 'light'" in
  getSimplePaths lightId SVString lightEvents lightNext (SVString "blue") true 4
  = Some (Throw message)
  ∧ ∃ sv e, reachable lightEvents lightNext (SVString "blue") sv
            ∧ e ∈ lightEvents ∧ lightNext sv e = Throw message.
Proof.
  intros message.
  assert (getSimplePaths lightId SVString lightEvents lightNext (SVString "blue")
            true 4 = Some (Throw message)) as Hrun by (vm_compute; reflexivity).
  split; [exact Hrun|].
  exact (getSimplePaths_throws_only lightId SVString lightEvents lightNext
           (SVString "blue") true 4 message Hrun).
Defined.

Lemma getSimplePaths_returns_witness :
  let universe : gset string := list_to_set ["green"; "yellow"; "red"] in
  size universe < 4
  ∧ ∃ result,
      getSimplePaths lightId SVString lightEvents lightNext (SVString "green")
        true 4 = Some (Ok result)
      ∧ [] ∈ default [] (obj_get (lightId (SVString "green")) result).
Proof.
  intros universe.
  assert (size universe < 4) as Hsize by (vm_compute; lia).
  split; [exact Hsize|].
  apply (getSimplePaths_returns lightId SVString lightEvents lightNext
           (SVString "green") true universe 4 eq_refl light_reachable_ids Hsize).
  intros sv e Hsv _.
  destruct (light_reachable sv Hsv) as [-> | [-> | ->]]; cbn; by eexists.
Defined.

(** ** The paths of [getShortestPaths] *)

Import ShortestPaths.

Lemma keyset_size (adjacency : AdjacencyMap) :
  size (keyset adjacency) ≤ length adjacency.
Proof.
  unfold keyset, keys. rewrite <- (length_map fst adjacency).
  induction (map fst adjacency) as [|k l IH]; [done|].
  cbn [list_to_set foldr length]. rewrite size_union_alt, size_singleton.
  pose proof (subseteq_size (list_to_set l ∖ {[k]}) (list_to_set l : gset string))
    as Hle.
  assert (list_to_set l ∖ {[k]} ⊆ (list_to_set l : gset string)) as Hsub.
  { intros x. rewrite elem_of_difference. by intros [Hx _]. }
  specialize (Hle Hsub). lia.
Qed.

Section ShortestFacts.
Variable stringify : StateValue → string.
Variable delimiter : string.
Variable adjacency : AdjacencyMap.
Variable initialValue : StateValue.

Local Abbreviation relaxEach := (ShortestPaths.relaxEach stringify delimiter).
Local Abbreviation visitEach := (ShortestPaths.visitEach stringify).
Local Abbreviation util := (ShortestPaths.util stringify delimiter adjacency).
Local Abbreviation initialStateId := (stringify initialValue).
Local Abbreviation leadsTo :=
  (ShortestPaths.leadsTo stringify adjacency initialStateId).
Local Abbreviation reached :=
  (ShortestPaths.reached stringify adjacency initialStateId).
Local Abbreviation leavesInto := (ShortestPaths.leavesInto stringify adjacency).
Local Abbreviation consistent :=
  (ShortestPaths.consistent stringify adjacency initialStateId).
Local Abbreviation searched :=
  (ShortestPaths.searched stringify adjacency initialStateId).

Hypothesis adjacency_closed : closed stringify adjacency.
Hypothesis adjacency_normal : normal stringify delimiter adjacency.

Lemma leadsTo_reached id p : leadsTo id p → reached id.
Proof.
  induction 1 as [|sv em e v p _ IH Hem He Hv]; [apply reached_initial|].
  by eapply reached_edge.
Qed.

Lemma relaxEach_spec (stateValue : StateValue)
    (eventMap : list (string * StateValue)) :
  obj_get (stringify stateValue) adjacency = Some eventMap →
  ∀ events pathMap,
    (∀ e, e ∈ events → e ∈ keys eventMap) →
    (∀ id p, obj_get id pathMap = Some p → leadsTo id p) →
    obj_get initialStateId pathMap = Some [] →
    is_Some (obj_get (stringify stateValue) pathMap) →
    ∃ relaxed,
      relaxEach stateValue (stringify stateValue) eventMap events pathMap
      = Ok relaxed
      ∧ (∀ id p, obj_get id relaxed = Some p → leadsTo id p)
      ∧ obj_get initialStateId relaxed = Some []
      ∧ (∀ id, is_Some (obj_get id pathMap) → is_Some (obj_get id relaxed))
      ∧ (∀ e v, e ∈ events → obj_get e eventMap = Some v → truthy v = true →
                is_Some (obj_get (stringify v) relaxed)).
Proof.
  intros HeventMap. induction events as [|event rest IH];
    intros pathMap Hkeys Hvalid Hinitial Hhere.
  - exists pathMap. split; [done|]. split; [done|]. split; [done|].
    split; [done|]. intros e v He. by apply elem_of_nil in He.
  - cbn [ShortestPaths.relaxEach].
    assert (∀ e, e ∈ rest → e ∈ keys eventMap) as Hrest
        by (intros e He; apply Hkeys; by right).
    destruct (obj_get event eventMap) as [next|] eqn:Hevent.
    2:{ apply obj_get_None in Hevent. exfalso. apply Hevent, Hkeys. by left. }
    (* the remaining events, from a map that has a path for this one *)
    assert (∀ pathMap',
              (∀ id p, obj_get id pathMap' = Some p → leadsTo id p) →
              obj_get initialStateId pathMap' = Some [] →
              (∀ id, is_Some (obj_get id pathMap) → is_Some (obj_get id pathMap')) →
              (truthy next = true → is_Some (obj_get (stringify next) pathMap')) →
              ∃ relaxed,
                relaxEach stateValue (stringify stateValue) eventMap rest pathMap'
                = Ok relaxed
                ∧ (∀ id p, obj_get id relaxed = Some p → leadsTo id p)
                ∧ obj_get initialStateId relaxed = Some []
                ∧ (∀ id, is_Some (obj_get id pathMap) →
                         is_Some (obj_get id relaxed))
                ∧ (∀ e v, e ∈ event :: rest → obj_get e eventMap = Some v →
                          truthy v = true →
                          is_Some (obj_get (stringify v) relaxed))) as Hcontinue.
    { intros pathMap' Hvalid' Hinitial' Hgrows Hnext.
      destruct (IH pathMap' Hrest Hvalid' Hinitial' (Hgrows _ Hhere))
        as (relaxed & Hrun & Hvalid'' & Hinitial'' & Hgrows' & Htargets).
      exists relaxed. split; [done|]. split; [done|]. split; [done|].
      split; [intros id Hid; by apply Hgrows', Hgrows|].
      intros e v He Hget Htruthy. apply elem_of_cons in He as [-> | He].
      - rewrite Hevent in Hget. injection Hget as <-. by apply Hgrows', Hnext.
      - by eapply Htargets. }
    destruct (truthy next) eqn:Htruthy; cbn [negb].
    2:{ by apply Hcontinue. }
    rewrite (adjacency_normal _ _ _ _ HeventMap Hevent Htruthy).
    destruct Hhere as [here Hhere]. rewrite Hhere. cbn [default].
    (* the map once the path of the next state is set *)
    assert (stringify next ≠ initialStateId →
            stringify next ≠ stringify stateValue →
            ∃ relaxed,
              relaxEach stateValue (stringify stateValue) eventMap rest
                (obj_set (stringify next) (here ++ [mkSegment stateValue event])
                   pathMap)
              = Ok relaxed
              ∧ (∀ id p, obj_get id relaxed = Some p → leadsTo id p)
              ∧ obj_get initialStateId relaxed = Some []
              ∧ (∀ id, is_Some (obj_get id pathMap) → is_Some (obj_get id relaxed))
              ∧ (∀ e v, e ∈ event :: rest → obj_get e eventMap = Some v →
                        truthy v = true →
                        is_Some (obj_get (stringify v) relaxed))) as Hset.
    { intros Hne Hne'. apply Hcontinue.
      - intros id p. destruct (decide (id = stringify next)) as [-> | Hid].
        + rewrite obj_get_set_eq. intros [= <-].
          eapply leadsTo_edge; [|done..]. by apply Hvalid.
        + rewrite obj_get_set_ne by done. apply Hvalid.
      - rewrite obj_get_set_ne by done. done.
      - intros id Hid. apply present_set. by right.
      - intros _. rewrite obj_get_set_eq. by eexists. }
    destruct (obj_get (stringify next) pathMap) as [known|] eqn:Hknown.
    + destruct (Nat.ltb_spec (length here + 1) (length known)) as [Hshorter | _].
      * apply Hset.
        -- intros Heq. rewrite Heq, Hinitial in Hknown.
           injection Hknown as <-. cbn in Hshorter. lia.
        -- intros Heq. rewrite Heq, Hhere in Hknown.
           injection Hknown as <-. lia.
      * apply Hcontinue; [done | done | done |]. intros _. rewrite Hknown.
        by eexists.
    + apply Hset; intros Heq; rewrite Heq in Hknown; congruence.
Qed.

Lemma unvisited_less (ids ids' : gset string) (a : string) :
  a ∈ keys adjacency → a ∉ ids → a ∈ ids' → ids ⊆ ids' →
  size (keyset adjacency ∖ ids') < size (keyset adjacency ∖ ids).
Proof.
  intros Hkey Hfresh Hin Hsub. apply subset_size. split.
  - intros k. rewrite !elem_of_difference. intros [Hk Hno].
    split; [done|]. intros Hk'. by apply Hno, Hsub.
  - intros Hback. specialize (Hback a). rewrite !elem_of_difference in Hback.
    destruct Hback as [_ Hno]; [|done]. split; [|done].
    by apply elem_of_list_to_set.
Qed.

Lemma unvisited_mono (ids ids' : gset string) :
  ids ⊆ ids' →
  size (keyset adjacency ∖ ids') ≤ size (keyset adjacency ∖ ids).
Proof.
  intros Hsub. apply subseteq_size. intros k. rewrite !elem_of_difference.
  intros [Hk Hno]. split; [done|]. intros Hk'. by apply Hno, Hsub.
Qed.

Lemma visitEach_spec (fuel : nat)
    (rec : StateValue → Search → option (Result Search))
    (a : string) (eventMap : list (string * StateValue)) :
  (∀ sv s, consistent s → stringify sv ∈ keys adjacency →
           stringify sv ∉ visited s →
           is_Some (obj_get (stringify sv) (pathMap s)) →
           size (keyset adjacency ∖ visited s) < fuel →
           searched (stringify sv) s (rec sv s)) →
  obj_get a adjacency = Some eventMap →
  ∀ events s,
    (∀ e, e ∈ events → e ∈ keys eventMap) →
    consistent s →
    size (keyset adjacency ∖ visited s) < fuel →
    (∀ e v, obj_get e eventMap = Some v → truthy v = true →
            is_Some (obj_get (stringify v) (pathMap s))) →
    ∃ s', visitEach rec eventMap events s = Some (Ok s')
          ∧ consistent s'
          ∧ visited s ⊆ visited s'
          ∧ (∀ id, is_Some (obj_get id (pathMap s)) →
                   is_Some (obj_get id (pathMap s')))
          ∧ (∀ b, b ∈ visited s' → b ∉ visited s → leavesInto b (visited s'))
          ∧ (∀ e v, e ∈ events → obj_get e eventMap = Some v →
                    truthy v = true → stringify v ∈ visited s').
Proof.
  intros Hrec HeventMap. induction events as [|event rest IH];
    intros s Hkeys Hcons Hfuel Htargets.
  - exists s. split; [done|]. split; [done|]. split; [done|]. split; [done|].
    split; [by intros b Hb Hno|]. intros e v He. by apply elem_of_nil in He.
  - cbn [ShortestPaths.visitEach].
    assert (∀ e, e ∈ rest → e ∈ keys eventMap) as Hrest
        by (intros e He; apply Hkeys; by right).
    destruct (obj_get event eventMap) as [next|] eqn:Hevent.
    2:{ apply obj_get_None in Hevent. exfalso. apply Hevent, Hkeys. by left. }
    (* the remaining events, when this one needs no search *)
    assert ((truthy next = true → stringify next ∈ visited s) →
            ∃ s', visitEach rec eventMap rest s = Some (Ok s')
                  ∧ consistent s'
                  ∧ visited s ⊆ visited s'
                  ∧ (∀ id, is_Some (obj_get id (pathMap s)) →
                           is_Some (obj_get id (pathMap s')))
                  ∧ (∀ b, b ∈ visited s' → b ∉ visited s →
                          leavesInto b (visited s'))
                  ∧ (∀ e v, e ∈ event :: rest → obj_get e eventMap = Some v →
                            truthy v = true → stringify v ∈ visited s'))
      as Hskip.
    { intros Hdone.
      destruct (IH s Hrest Hcons Hfuel Htargets)
        as (s' & Hrun & Hcons' & Hsub & Hgrows & Hleaves & Hvisited).
      exists s'. split; [done|]. split; [done|]. split; [done|].
      split; [done|]. split; [done|].
      intros e v He Hget Htruthy. apply elem_of_cons in He as [-> | He].
      - rewrite Hevent in Hget. injection Hget as <-. by apply Hsub, Hdone.
      - by eapply Hvisited. }
    destruct (truthy next) eqn:Htruthy; cbn [negb]; [|by apply Hskip].
    destruct (decide (stringify next ∈ visited s)) as [Hin | Hnotin].
    { rewrite bool_decide_eq_true_2 by done. by apply Hskip. }
    rewrite bool_decide_eq_false_2 by done.
    destruct (Hrec next s Hcons) as
      (s1 & Hrun1 & Hcons1 & Hin1 & Hsub1 & Hgrows1 & Hleaves1);
      [by eapply adjacency_closed | done | by eapply Htargets | done |].
    rewrite Hrun1.
    destruct (IH s1 Hrest Hcons1)
      as (s' & Hrun & Hcons' & Hsub & Hgrows & Hleaves & Hvisited).
    { pose proof (unvisited_mono _ _ Hsub1). lia. }
    { intros e v Hget Hv. by eapply Hgrows1, Htargets. }
    exists s'. split; [done|]. split; [done|].
    split; [by etrans|]. split; [intros id Hid; by apply Hgrows, Hgrows1|].
    split.
    + intros b Hb Hno. destruct (decide (b ∈ visited s1)) as [Hb1 | Hb1].
      * intros em e v Hem He Hv. apply Hsub. by eapply (Hleaves1 b Hb1 Hno).
      * by apply Hleaves.
    + intros e v He Hget Hv. apply elem_of_cons in He as [-> | He].
      * rewrite Hevent in Hget. injection Hget as <-. by apply Hsub.
      * by eapply Hvisited.
Qed.

Lemma shortest_util_spec (fuel : nat) :
  ∀ sv s,
    consistent s → stringify sv ∈ keys adjacency →
    stringify sv ∉ visited s →
    is_Some (obj_get (stringify sv) (pathMap s)) →
    size (keyset adjacency ∖ visited s) < fuel →
    searched (stringify sv) s (util fuel sv s).
Proof.
  induction fuel as [|fuel IH]; intros sv s Hcons Hkey Hfresh Hhere Hfuel; [lia|].
  cbn [ShortestPaths.util].
  destruct (obj_get (stringify sv) adjacency) as [eventMap|] eqn:HeventMap.
  2:{ by apply obj_get_None in HeventMap. }
  destruct Hcons as (Hvalid & Hinitial & Hentries).
  destruct (relaxEach_spec sv eventMap HeventMap (keys eventMap) (pathMap s)
              ltac:(done) Hvalid Hinitial Hhere)
    as (relaxed & -> & Hvalid' & Hinitial' & Hgrows & Htargets).
  set (s1 := mkSearch ({[stringify sv]} ∪ visited s) relaxed).
  assert (visited s ⊆ visited s1) as Hsub1.
  { intros x Hx. cbn. apply elem_of_union. by right. }
  assert (stringify sv ∈ visited s1) as Hin1.
  { cbn. apply elem_of_union. left. by apply elem_of_singleton. }
  destruct (visitEach_spec fuel (util fuel) (stringify sv) eventMap IH HeventMap
              (keys eventMap) s1 ltac:(done))
    as (s' & Hrun & Hcons' & Hsub & Hgrows' & Hleaves & Hvisited).
  { split; [done|]. split; [done|]. intros a Ha. cbn in Ha |- *.
    apply elem_of_union in Ha as [Ha | Ha].
    - apply elem_of_singleton in Ha as ->. by apply Hgrows.
    - by apply Hgrows, Hentries. }
  { pose proof (unvisited_less (visited s) (visited s1) (stringify sv)
                  Hkey Hfresh Hin1 Hsub1). lia. }
  { intros e v Hget Hv. eapply Htargets; [|done..].
    apply obj_get_is_Some. by eexists. }
  exists s'. split; [done|]. split; [done|]. split; [by apply Hsub|].
  split; [by etrans|]. split; [intros id Hid; by apply Hgrows', Hgrows|].
  intros a Ha Hno. destruct (decide (a ∈ visited s1)) as [Ha1 | Ha1].
  - cbn in Ha1. apply elem_of_union in Ha1 as [Ha1 | Ha1]; [|done].
    apply elem_of_singleton in Ha1 as ->.
    intros em e v Hem He Hv. rewrite HeventMap in Hem. injection Hem as <-.
    eapply Hvisited; [|done..]. apply obj_get_is_Some. by eexists.
  - by apply Hleaves.
Qed.

Lemma shortestPathsOver_spec :
  initialStateId ∈ keys adjacency →
  ∃ result,
    shortestPathsOver stringify delimiter adjacency initialValue
    = Some (Ok result)
    ∧ obj_get initialStateId result = Some []
    ∧ (∀ id p, obj_get id result = Some p → leadsTo id p)
    ∧ (∀ id, is_Some (obj_get id result) ↔ reached id).
Proof.
  intros Hkey. unfold shortestPathsOver.
  destruct (shortest_util_spec (S (length adjacency)) initialValue
              (mkSearch ∅ [(initialStateId, [])]))
    as (s' & -> & (Hvalid & Hinitial & Hentries) & Hin & _ & _ & Hleaves).
  - split; [|split].
    + intros id p. cbn. destruct (String.eqb_spec initialStateId id) as [<- | _];
        [|done]. intros [= <-]. apply leadsTo_initial.
    + cbn. by rewrite String.eqb_refl.
    + intros a Ha. by apply elem_of_empty in Ha.
  - done.
  - apply not_elem_of_empty.
  - cbn. rewrite String.eqb_refl. by eexists.
  - cbn. pose proof (keyset_size adjacency).
    pose proof (unvisited_mono ∅ ∅ (reflexivity _)).
    assert (size (keyset adjacency ∖ ∅) ≤ size (keyset adjacency)); [|lia].
    apply subseteq_size. intros k. rewrite elem_of_difference. by intros [Hk _].
  - exists (pathMap s'). split; [done|]. split; [done|]. split; [done|].
    intros id. split.
    + intros [p Hp]. eapply leadsTo_reached. by apply Hvalid.
    + intros Hreached. apply Hentries.
      induction Hreached as [|a em e v _ IH Hem He Hv]; [done|].
      eapply (Hleaves a); [done | apply not_elem_of_empty | done..].
Qed.
End ShortestFacts.

(** X29. Over a closed map whose values are in normal form and which holds
    the initial state, the search of [getShortestPaths] returns; the initial
    state has the empty path; every path leads from the initial state to the
    state it is listed under, along edges of the map; and the states listed
    are exactly those the edges reach.  That a listed path is a shortest one
    does not follow, and does not hold (see the example below). *)
Theorem shortestPathsOver_leads (stringify : StateValue → string)
    (delimiter : string) (adjacency : AdjacencyMap) (initialValue : StateValue) :
  closed stringify adjacency →
  normal stringify delimiter adjacency →
  stringify initialValue ∈ keys adjacency →
  ∃ result,
    shortestPathsOver stringify delimiter adjacency initialValue
    = Some (Ok result)
    ∧ obj_get (stringify initialValue) result = Some []
    ∧ (∀ id p, obj_get id result = Some p →
               leadsTo stringify adjacency (stringify initialValue) id p)
    ∧ (∀ id, is_Some (obj_get id result)
             ↔ reached stringify adjacency (stringify initialValue) id).
Proof. apply shortestPathsOver_spec. Qed.

(** A state that is first reached the long way round keeps the long path
    for the states after it: [F] is three steps from [A], and is listed with
    five. *)
Example shortestPathsOver_not_shortest :
  let adjacency : AdjacencyMap :=
    [("A", [("long", SVString "B"); ("short", SVString "X")]);
     ("B", [("next", SVString "C")]);
     ("C", [("next", SVString "D")]);
     ("D", [("next", SVString "E")]);
     ("E", [("next", SVString "F")]);
     ("F", []);
     ("X", [("next", SVString "E")])] in
  ∃ result listed,
    shortestPathsOver lightId "." adjacency (SVString "A") = Some (Ok result)
    ∧ obj_get "F" result = Some listed
    ∧ length listed = 5
    ∧ ∃ shorter, leadsTo lightId adjacency "A" "F" shorter ∧ length shorter = 3.
Proof.
  intros adjacency. eexists. eexists.
  split; [vm_compute; reflexivity|]. split; [reflexivity|]. split; [reflexivity|].
  exists ([] ++ [mkSegment (SVString "A") "short"]
             ++ [mkSegment (SVString "X") "next"]
             ++ [mkSegment (SVString "E") "next"]).
  split; [|reflexivity]. rewrite !app_assoc.
  apply (leadsTo_edge lightId adjacency "A" (SVString "E")
           [("next", SVString "F")] "next" (SVString "F")); [|reflexivity..].
  apply (leadsTo_edge lightId adjacency "A" (SVString "X")
           [("next", SVString "E")] "next" (SVString "E")); [|reflexivity..].
  apply (leadsTo_edge lightId adjacency "A" (SVString "A")
           [("long", SVString "B"); ("short", SVString "X")] "short"
           (SVString "X")); [|reflexivity..].
  apply leadsTo_initial.
Qed.

Section ShortestOfMachineFacts.
Variable stringify : StateValue → string.
Variable delimiter : string.
Variable events : list string.
Variable transitionValue : StateValue → string → Result StateValue.
Variable initialValue : StateValue.
Variable machineStates : bool.

Local Abbreviation getAdjacencyMap :=
  (Graph.getAdjacencyMap stringify events transitionValue initialValue).
Local Abbreviation reachable :=
  (Graph.reachable events transitionValue initialValue).
Local Abbreviation getShortestPaths :=
  (Graph.getShortestPaths stringify delimiter events transitionValue initialValue
     machineStates).

Lemma explored_normal (fuel : nat) (adjacency : AdjacencyMap) :
  (∀ sv, reachable sv →
         stringify (toStateValue (LikeValue sv) delimiter) = stringify sv) →
  getAdjacencyMap fuel = Some (Ok adjacency) →
  normal stringify delimiter adjacency.
Proof.
  intros Hnormal Hrun a eventMap e v Ha He _.
  destruct (getAdjacencyMap_spec _ _ _ _ fuel _ Hrun) as (_ & _ & Hedges).
  destruct (Hedges a e v) as (Hin & (sv & Hsv & _ & Hnext) & _);
    [by exists eventMap|].
  apply Hnormal. by eapply reachable_next.
Qed.

(** X30. On a machine whose reachable states have finitely many ids and are
    in normal form, and whose transitions from them do not throw,
    [getShortestPaths] returns, with the empty path for the initial state. *)
Theorem getShortestPaths_returns (universe : gset string) (fuel : nat) :
  machineStates = true →
  (∀ sv, reachable sv → stringify sv ∈ universe) →
  size universe < fuel →
  (∀ sv e, reachable sv → e ∈ events → ∃ w, transitionValue sv e = Ok w) →
  (∀ sv, reachable sv →
         stringify (toStateValue (LikeValue sv) delimiter) = stringify sv) →
  ∃ result,
    getShortestPaths fuel = Some (Ok result)
    ∧ obj_get (stringify initialValue) result = Some [].
Proof.
  intros -> Huniverse Hfuel Hnothrow Hnormal. unfold Graph.getShortestPaths.
  cbn [negb].
  destruct (getAdjacencyMap_total _ _ _ _ universe Huniverse fuel Hfuel)
    as [r Hadj].
  rewrite Hadj. destruct r as [adjacency|m].
  2:{ destruct (getAdjacencyMap_spec _ _ _ _ fuel _ Hadj)
        as (sv & e & Hsv & He & Hthrow).
      destruct (Hnothrow sv e Hsv He) as [w Hw]. congruence. }
  destruct (explored_closed _ _ _ _ fuel adjacency Hadj) as [Hclosed Hinit].
  destruct (shortestPathsOver_spec stringify delimiter adjacency initialValue
              Hclosed (explored_normal fuel adjacency Hnormal Hadj) Hinit)
    as (result & Hrun & Hempty & _).
  by exists result.
Qed.
End ShortestOfMachineFacts.

Lemma light_normal (sv : StateValue) :
  reachable lightEvents lightNext (SVString "green") sv →
  lightId (toStateValue (LikeValue sv) ".") = lightId sv.
Proof.
  intros Hsv. by destruct (light_reachable sv Hsv) as [-> | [-> | ->]].
Qed.

Lemma shortestPathsOver_leads_witness :
  let adjacency : AdjacencyMap :=
    [("green", [("TIMER", SVString "yellow"); ("KEEP_GOING", SVString "green");
                (after (inl 10%Z) (Some "light.red"), SVString "green")]);
     ("yellow", [("TIMER", SVString "red"); ("KEEP_GOING", SVString "yellow");
                 (after (inl 10%Z) (Some "light.red"), SVString "yellow")]);
     ("red", [("TIMER", SVString "red"); ("KEEP_GOING", SVString "red");
              (after (inl 10%Z) (Some "light.red"), SVString "green")])] in
  closed lightId adjacency
  ∧ normal lightId "." adjacency
  ∧ lightId (SVString "green") ∈ keys adjacency
  ∧ ∃ result,
      shortestPathsOver lightId "." adjacency (SVString "green")
      = Some (Ok result)
      ∧ obj_get "green" result = Some [].
Proof.
  intros adjacency.
  assert (getAdjacencyMap lightId lightEvents lightNext (SVString "green") 4
          = Some (Ok adjacency)) as Hrun by (vm_compute; reflexivity).
  destruct (explored_closed lightId lightEvents lightNext (SVString "green") 4
              adjacency Hrun) as [Hclosed Hinit].
  pose proof (explored_normal lightId "." lightEvents lightNext (SVString "green")
                4 adjacency light_normal Hrun) as Hnormal.
  split; [exact Hclosed|]. split; [exact Hnormal|]. split; [exact Hinit|].
  destruct (shortestPathsOver_leads lightId "." adjacency (SVString "green")
              Hclosed Hnormal Hinit) as (result & Hresult & Hempty & _).
  by exists result.
Defined.

Lemma getShortestPaths_returns_witness :
  let universe : gset string := list_to_set ["green"; "yellow"; "red"] in
  size universe < 4
  ∧ ∃ result,
      getShortestPaths lightId "." lightEvents lightNext (SVString "green")
        true 4 = Some (Ok result)
      ∧ obj_get (lightId (SVString "green")) result = Some [].
Proof.
  intros universe.
  assert (size universe < 4) as Hsize by (vm_compute; lia).
  split; [exact Hsize|].
  apply (getShortestPaths_returns lightId "." lightEvents lightNext
           (SVString "green") true universe 4 eq_refl light_reachable_ids Hsize).
  - intros sv e Hsv _.
    destruct (light_reachable sv Hsv) as [-> | [-> | ->]]; cbn; by eexists.
  - exact light_normal.
Defined.
